(** * A shallow embedding of [scel_parser.py] (sogou-scel2txt)

    The Python module decodes a Sogou cell dictionary (.scel).  We model:
    - a file opened with [open(path, 'rb')] as its byte contents (a list of
      [Z], each in 0..255) together with the position reported by [f.tell()];
    - Python [str] values as lists of code points ([list Z]);
    - Python list objects that can be aliased (the [word_py] list and its
      [.copy()]s) as locations of a small heap ([gmap nat (list pystr)]);
    - exceptions that can escape a call ([struct.error],
      [UnicodeDecodeError]) in a state-and-exception monad: the state
      changes made before the exception (e.g. a position advanced by a short
      read) are kept, as in Python. *)

From Stdlib Require Import ZArith Lia.
From stdpp Require Import base list gmap.

Open Scope Z_scope.

(** ** Data model *)

(** A Python [str]: a sequence of code points. *)
Abbreviation pystr := (list Z) (only parsing).

(** Heap locations of Python list objects. *)
Abbreviation loc := nat (only parsing).

(** The [WordLibrary] dataclass: [pinyin] is a reference to a list object. *)
Record WordLibrary := {
  word : pystr;
  pinyin : loc;
  rank : Z
}.

(** The interpreter state seen by the parser: the open file and the heap of
    list objects. *)
Record St := {
  data : list Z;                  (** the file contents *)
  pos : nat;                      (** [f.tell()] *)
  heap : gmap nat (list pystr);   (** list objects holding spellings *)
  next : nat                      (** next fresh location *)
}.

Definition set_pos (s : St) (p : nat) : St :=
  {| data := data s; pos := p; heap := heap s; next := next s |}.

Definition set_heap (s : St) (h : gmap nat (list pystr)) (n : nat) : St :=
  {| data := data s; pos := pos s; heap := h; next := n |}.

(** Exceptions that Python code of the module can raise. *)
Inductive PyExc := StructError | UnicodeDecodeError.

(** ** The state-and-exception monad *)

Definition M (A : Type) := St -> (PyExc + A) * St.

Definition ret {A} (a : A) : M A := fun s => (inr a, s).

Definition bind {A B} (m : M A) (k : A -> M B) : M B :=
  fun s => match m s with
           | (inr a, s') => k a s'
           | (inl e, s') => (inl e, s')
           end.

Definition raise {A} (e : PyExc) : M A := fun s => (inl e, s).

Notation "'let!' x ':=' m 'in' k" := (bind m (fun x => k))
  (at level 200, x name, m at level 100, k at level 200).

(** ** File operations *)

(** [f.seek(p)] *)
Definition seek (p : nat) : M unit := fun s => (inr tt, set_pos s p).

(** [f.tell()] *)
Definition tell : M nat := fun s => (inr (pos s), s).

(** [f.read(n)]: at most [n] bytes, fewer at the end of the file; the
    position advances by the number of bytes returned.  It never raises. *)
Definition read (n : nat) : M (list Z) :=
  fun s => let d := take n (drop (pos s) (data s)) in
           (inr d, set_pos s (pos s + length d)).

(** [struct.unpack('<H', b)[0]] and [struct.unpack('<I', b)[0]]: raise
    [struct.error] unless [b] has exactly the format's size. *)
Definition unpack_H (b : list Z) : M Z :=
  match b with
  | [b0; b1] => ret (b0 + Z.shiftl b1 8)
  | _ => raise StructError
  end.

Definition unpack_I (b : list Z) : M Z :=
  match b with
  | [b0; b1; b2; b3] =>
      ret (b0 + Z.shiftl b1 8 + Z.shiftl b2 16 + Z.shiftl b3 24)
  | _ => raise StructError
  end.

(** ** Heap operations on Python lists *)

(** [[]]: a fresh list object. *)
Definition alloc (v : list pystr) : M loc :=
  fun s => (inr (next s), set_heap s (<[next s := v]> (heap s)) (S (next s))).

(** [l.append(x)] *)
Definition append (l : loc) (x : pystr) : M unit :=
  fun s => let v := default [] (heap s !! l) in
           (inr tt, set_heap s (<[l := v ++ [x]]> (heap s)) (next s)).

(** [l.copy()]: a fresh list object with the same elements. *)
Definition copy (l : loc) : M loc :=
  fun s => alloc (default [] (heap s !! l)) s.

(** ** Text decoding *)

(** The [errors=] argument of [bytes.decode]. *)
Inductive errors := Strict | Ignore.

(** [bytes.decode('utf-16-le', errors)]: [None] is a [UnicodeDecodeError].
    As in CPython's UTF-16 decoder, with [errors='ignore'] a trailing odd
    byte is dropped ("truncated data"), a high surrogate with fewer than two
    bytes after it drops the rest ("unexpected end of data"), a lone low
    surrogate drops its two bytes ("illegal encoding") and a high surrogate
    not followed by a low one drops its two bytes and decoding resumes at the
    next unit ("illegal UTF-16 surrogate"). *)
Fixpoint decode_utf16le (e : errors) (b : list Z) : option pystr :=
  match b with
  | [] => Some []
  | [_] => match e with Strict => None | Ignore => Some [] end
  | b0 :: b1 :: rest =>
      let u := b0 + Z.shiftl b1 8 in
      if (u <? 0xD800) || (0xE000 <=? u) then
        option_map (cons u) (decode_utf16le e rest)
      else if u <? 0xDC00 then
        match rest with
        | c0 :: c1 :: rest' =>
            let u2 := c0 + Z.shiftl c1 8 in
            if (0xDC00 <=? u2) && (u2 <? 0xE000) then
              option_map
                (cons (0x10000 + Z.shiftl (u - 0xD800) 10 + (u2 - 0xDC00)))
                (decode_utf16le e rest')
            else match e with
                 | Strict => None
                 | Ignore => decode_utf16le e rest
                 end
        | _ => match e with Strict => None | Ignore => Some [] end
        end
      else match e with
           | Strict => None
           | Ignore => decode_utf16le e rest
           end
  end.

(** [str.isspace()] for one code point (Python's whitespace set). *)
Definition py_isspace (c : Z) : bool :=
  ((0x09 <=? c) && (c <=? 0x0D)) || ((0x1C <=? c) && (c <=? 0x20))
  || (c =? 0x85) || (c =? 0xA0) || (c =? 0x1680)
  || ((0x2000 <=? c) && (c <=? 0x200A))
  || (c =? 0x2028) || (c =? 0x2029) || (c =? 0x202F) || (c =? 0x205F)
  || (c =? 0x3000).

Fixpoint lstrip (t : pystr) : pystr :=
  match t with
  | c :: t' => if py_isspace c then lstrip t' else t
  | [] => []
  end.

(** [str.strip()] *)
Definition strip (t : pystr) : pystr := rev (lstrip (rev (lstrip t))).

(** [text.find('\x00')] followed by [text[:null_pos]] when found. *)
Fixpoint cut_at_null (t : pystr) : pystr :=
  match t with
  | c :: t' => if c =? 0 then [] else c :: cut_at_null t'
  | [] => []
  end.

(** [s.replace('\x00', '')] *)
Definition remove_nulls (t : pystr) : pystr := filter (fun c => negb (c =? 0)) t.

(** [ord(ch)] for the fallback spelling [chr(97 + (idx % 26))]. *)
Definition fallback_spelling (idx : Z) : pystr := [97 + idx mod 26].

(** The fixed alphabet a..z onto which [idx % 26] is mapped. *)
Definition alphabet : list Z := map (fun k => 97 + Z.of_nat k) (seq 0 26).

Section Parser.

(** [bytes.decode('gbk', errors='ignore')]: Python's GBK codec in its
    permissive mode.  It never raises; its code table is left abstract, as
    none of the properties below depends on it. *)
Variable gbk_decode_ignore : list Z -> pystr.

(** [_read_scel_field_text(f, seek_pos, length=64)] *)
Definition read_scel_field_text (seek_pos : nat) (length : nat) : M pystr :=
  let! current_pos := tell in
  let! _ := seek seek_pos in
  let! d := read length in
  let text := match decode_utf16le Ignore d with
              | Some t => t
              | None => gbk_decode_ignore d
              end in
  let text := cut_at_null text in
  let! _ := seek current_pos in
  ret (strip text).

(** [str(n)] for a non-negative integer: its decimal digits. *)
Fixpoint digits_aux (fuel : nat) (n : Z) (acc : pystr) : pystr :=
  match fuel with
  | O => acc
  | S f => if n <? 10 then (48 + n) :: acc
           else digits_aux f (n / 10) ((48 + n mod 10) :: acc)
  end.

Definition py_str_of_int (n : Z) : pystr := digits_aux 64 n [].

(** The dictionary returned by [read_scel_info]. *)
Record ScelInfo := {
  CountWord : pystr;
  Name : pystr;
  Type_ : pystr;  (** the key 'Type' *)
  Info : pystr;
  Sample : pystr
}.

(** Body of [read_scel_info], run on the file opened at position 0. *)
Definition read_scel_info_m : M ScelInfo :=
  let! _ := seek 0x124 in
  let! b := read 4 in
  let! count_word := unpack_I b in
  let! name := read_scel_field_text 0x130 64 in
  let! type := read_scel_field_text 0x338 64 in
  let! info := read_scel_field_text 0x540 1024 in
  let! sample := read_scel_field_text 0xD40 1024 in
  ret {| CountWord := py_str_of_int count_word; Name := name; Type_ := type;
         Info := info; Sample := sample |}.

(** A file freshly opened with [open(file_path, 'rb')]. *)
Definition open_file (contents : list Z) : St :=
  {| data := contents; pos := 0; heap := ∅; next := 0 |}.

Definition read_scel_info (contents : list Z) : PyExc + ScelInfo :=
  fst (read_scel_info_m (open_file contents)).

(** [try: m except Exception: h] *)
Definition catch {A} (m : M A) (h : PyExc -> M A) : M A :=
  fun s => match m s with
           | (inl e, s') => h e s'
           | (inr a, s') => (inr a, s')
           end.

(** The loop [for _ in range(py_dict_len)] of [parse_scel] that builds
    [py_dict] (later entries overwrite earlier ones with the same index). *)
Fixpoint read_py_table (n : nat) (py_dict : gmap Z pystr) : M (gmap Z pystr) :=
  match n with
  | O => ret py_dict
  | S n' =>
      let! b := read 2 in
      let! idx := unpack_H b in
      let! b := read 2 in
      let! size := unpack_H b in
      let! py_data := read (Z.to_nat size) in
      let py_str := match decode_utf16le Strict py_data with
                    | Some t => t
                    | None => gbk_decode_ignore py_data
                    end in
      let py_str := strip (remove_nulls py_str) in
      read_py_table n' (<[idx := py_str]> py_dict)
  end.

(** The loop [for i in range(0, len(py_data), 2)] of [_parse_pinyin_word]:
    each pair of bytes is one index; a last unpaired byte ends the loop
    ([if i + 1 >= len(py_data): break]). *)
Fixpoint read_py_indices (py_dict : gmap Z pystr) (word_py : loc)
    (py_data : list Z) : M unit :=
  match py_data with
  | b0 :: b1 :: rest =>
      let idx := b0 + Z.shiftl b1 8 in
      let! _ := append word_py (match py_dict !! idx with
                                | Some s => s
                                | None => [97 + idx mod 26]
                                end) in
      read_py_indices py_dict word_py rest
  | _ => ret tt
  end.

(** [word_data.decode('utf-16-le')], falling back to GBK. *)
Definition decode_word (word_data : list Z) : pystr :=
  match decode_utf16le Strict word_data with
  | Some w => w
  | None => gbk_decode_ignore word_data
  end.

(** The loop [for _ in range(same_py_count)] of [_parse_pinyin_word];
    [words] is the list built so far. *)
Fixpoint read_homophones (n : nat) (word_py : loc) (words : list WordLibrary)
    : M (list WordLibrary) :=
  match n with
  | O => ret words
  | S n' =>
      let! len_data := read 2 in
      if (length len_data <? 2)%nat then ret words
      else
        let word_len := nth 0 len_data 0 + Z.shiftl (nth 1 len_data 0) 8 in
        let! word_data := read (Z.to_nat word_len) in
        let w := remove_nulls (decode_word word_data) in
        let! _ := read 12 in
        let! p := copy word_py in
        read_homophones n' word_py (words ++ [{| word := w; pinyin := p; rank := 1 |}])
  end.

(** [_parse_pinyin_word(f, py_dict)] *)
Definition parse_pinyin_word (py_dict : gmap Z pystr) : M (list WordLibrary) :=
  let! header := read 4 in
  if (length header <? 4)%nat then ret []
  else
    let same_py_count := nth 0 header 0 + Z.shiftl (nth 1 header 0) 8 in
    let py_index_count := nth 2 header 0 + Z.shiftl (nth 3 header 0) 8 in
    let! py_data := read (Z.to_nat py_index_count) in
    let! word_py := alloc [] in
    let! _ := read_py_indices py_dict word_py py_data in
    read_homophones (Z.to_nat same_py_count) word_py [].

(** The loop [for _ in range(dict_len)] of [parse_scel], with its
    [try/except]: on an exception the position is realigned to an even
    offset by reading one byte. *)
Fixpoint parse_groups (py_dict : gmap Z pystr) (n : nat)
    (word_libraries : list WordLibrary) : M (list WordLibrary) :=
  match n with
  | O => ret word_libraries
  | S n' =>
      let! wl := catch (let! words := parse_pinyin_word py_dict in
                        ret (word_libraries ++ words))
                       (fun _ => let! p := tell in
                                 if Nat.odd p then (let! _ := read 1 in ret word_libraries)
                                 else ret word_libraries) in
      parse_groups py_dict n' wl
  end.

(** Body of [parse_scel]. *)
Definition parse_scel_m : M (list WordLibrary) :=
  let! _ := seek 0x120 in
  let! b := read 4 in
  let! dict_len := unpack_I b in
  let! _ := seek 0x1540 in
  let! b := read 4 in
  let! py_dict_len := unpack_I b in
  let! py_dict := read_py_table (Z.to_nat py_dict_len) ∅ in
  parse_groups py_dict (Z.to_nat dict_len) [].

(** [parse_scel(file_path)]: the result and the final interpreter state (the
    heap holds the entries' spelling lists). *)
Definition parse_scel (contents : list Z) : (PyExc + list WordLibrary) * St :=
  parse_scel_m (open_file contents).

End Parser.

(** ** Auxiliary definitions used to state the properties *)

(** The bytes not yet read: [f.read()] from the current position. *)
Definition rest (s : St) : list Z := drop (pos s) (data s).

(** The string [_read_scel_field_text] returns for the file [c]. *)
Definition field_text (g : list Z -> pystr) (sp len : nat) (c : list Z) : pystr :=
  strip (cut_at_null
    (match decode_utf16le Ignore (take len (drop sp c)) with
     | Some t => t
     | None => g (take len (drop sp c))
     end)).

(** The spelling [_parse_pinyin_word] appends for one index. *)
Definition spelling (py_dict : gmap Z pystr) (idx : Z) : pystr :=
  match py_dict !! idx with
  | Some s => s
  | None => [97 + idx mod 26]
  end.

(** The spellings of all complete index pairs of [py_data], in order. *)
Fixpoint spells (py_dict : gmap Z pystr) (py_data : list Z) : list pystr :=
  match py_data with
  | b0 :: b1 :: r => spelling py_dict (b0 + Z.shiftl b1 8) :: spells py_dict r
  | _ => []
  end.

(** ** Serialised input, as the format lays it out *)

(** Little-endian encodings of 16- and 32-bit unsigned integers. *)
Definition le16 (n : Z) : list Z := [n mod 256; n / 256].

Definition le32 (n : Z) : list Z :=
  [n mod 256; (n / 256) mod 256; (n / 65536) mod 256; n / 16777216].

(** A homophone record: the word's bytes and its 12-byte trailer, preceded
    by the 2-byte length of the word's bytes. *)
Definition enc_record (r : list Z * list Z) : list Z :=
  le16 (Z.of_nat (length r.1)) ++ r.1 ++ r.2.

Definition record_wf (r : list Z * list Z) : Prop :=
  Z.of_nat (length r.1) < 65536 /\ length r.2 = 12%nat.

(** An entry group: its index bytes and its homophone records; the header
    holds [homophoneCount] (the number of records) and
    [phoneticIndexByteLength]. *)
Record GroupBytes := {
  g_indices : list Z;
  g_records : list (list Z * list Z)
}.

Definition enc_group (gr : GroupBytes) : list Z :=
  le16 (Z.of_nat (length (g_records gr))) ++ le16 (Z.of_nat (length (g_indices gr)))
  ++ g_indices gr ++ concat (map enc_record (g_records gr)).

Definition group_wf (gr : GroupBytes) : Prop :=
  Z.of_nat (length (g_records gr)) < 65536 /\ Z.of_nat (length (g_indices gr)) < 65536 /\
  Forall record_wf (g_records gr).

(** A phonetic table entry: 2-byte index, 2-byte length, spelling bytes. *)
Definition enc_entry (e : Z * list Z) : list Z :=
  le16 e.1 ++ le16 (Z.of_nat (length e.2)) ++ e.2.

Definition entry_wf (e : Z * list Z) : Prop :=
  0 <= e.1 < 65536 /\ Z.of_nat (length e.2) < 65536.

(** The word an entry gets from a record. *)
Definition record_word (g : list Z -> pystr) (r : list Z * list Z) : pystr :=
  remove_nulls (decode_word g r.1).

(** ** Output and command line *)

(** [str.encode('utf-8')] of one code point; a surrogate code point cannot
    be encoded ([UnicodeEncodeError], here [None]). *)
Definition utf8_encode_char (c : Z) : option (list Z) :=
  if c <? 0x80 then Some [c]
  else if c <? 0x800 then Some [0xC0 + c / 64; 0x80 + c mod 64]
  else if (0xD800 <=? c) && (c <? 0xE000) then None
  else if c <? 0x10000 then
    Some [0xE0 + c / 4096; 0x80 + (c / 64) mod 64; 0x80 + c mod 64]
  else Some [0xF0 + c / 262144; 0x80 + (c / 4096) mod 64;
             0x80 + (c / 64) mod 64; 0x80 + c mod 64].

Fixpoint utf8_encode (t : pystr) : option (list Z) :=
  match t with
  | [] => Some []
  | c :: t' =>
      match utf8_encode_char c, utf8_encode t' with
      | Some b, Some r => Some (b ++ r)
      | _, _ => None
      end
  end.

(** The text [save_to_txt] writes: [f.write(f"{wl.word}\n")] for each
    entry ([py_str] is computed and never used). *)
Definition save_to_txt_text (word_libraries : list WordLibrary) : pystr :=
  concat (map (fun wl => word wl ++ [10]) word_libraries).

(** [save_to_txt(word_libraries, output_path)]: the bytes of the file opened
    with [encoding='utf-8'], or [None] when the encoding raises. *)
Definition save_to_txt (word_libraries : list WordLibrary) : option (list Z) :=
  utf8_encode (save_to_txt_text word_libraries).

(** The file system as the script sees it: [os.path.exists], the contents
    read through [open(path, 'rb')] ([None]: [open] raises), and whether
    [open(path, 'w')] succeeds. *)
Record Env := {
  fs_exists : pystr -> bool;
  fs_read : pystr -> option (list Z);
  fs_writable : pystr -> bool
}.

(** What a run of the script leaves: its exit status and the file written
    ([Some (path, Some bytes)]), or created and left with unspecified
    contents because an encoding error interrupted the writes
    ([Some (path, None)]).  Printed text is not modelled. *)
Record Outcome := {
  exit_code : Z;
  written : option (pystr * option (list Z))
}.

(** ["output.txt"] *)
Definition output_txt : pystr := [111; 117; 116; 112; 117; 116; 46; 116; 120; 116].

(** The [if __name__ == "__main__":] block run with [sys.argv = argv].
    [sys.exit(1)] ends the run with status 1; an exception inside the [try]
    is printed and the script ends normally (status 0). *)
Definition main (g : list Z -> pystr) (argv : list pystr) (env : Env) : Outcome :=
  match argv with
  | _ :: input_path :: argv' =>
      let output_path := match argv' with o :: _ => o | [] => output_txt end in
      if negb (fs_exists env input_path) then {| exit_code := 1; written := None |}
      else
        match fs_read env input_path with
        | None => {| exit_code := 0; written := None |}
        | Some c =>
            match read_scel_info g c with
            | inl _ => {| exit_code := 0; written := None |}
            | inr _ =>
                match fst (parse_scel g c) with
                | inl _ => {| exit_code := 0; written := None |}
                | inr word_libraries =>
                    if negb (fs_writable env output_path)
                    then {| exit_code := 0; written := None |}
                    else {| exit_code := 0;
                            written := Some (output_path, save_to_txt word_libraries) |}
                end
            end
        end
  | _ => {| exit_code := 1; written := None |}
  end.

(** Lines of a text: the pieces between ['\n'] characters, each line ended
    by one. *)
Fixpoint split_lines_aux (t : pystr) (cur : pystr) : list pystr :=
  match t with
  | [] => []
  | c :: t' => if c =? 10 then rev cur :: split_lines_aux t' []
               else split_lines_aux t' (c :: cur)
  end.

Definition split_lines (t : pystr) : list pystr := split_lines_aux t [].

(** The spelling [parse_scel] stores for a phonetic-table entry's bytes. *)
Definition table_spelling (g : list Z -> pystr) (py_data : list Z) : pystr :=
  strip (remove_nulls (match decode_utf16le Strict py_data with
                       | Some t => t
                       | None => g py_data
                       end)).

(** A string with no null code point and no leading or trailing whitespace
    (what [.replace('\x00', '')] followed by [.strip()] leaves). *)
Definition stripped_text (t : pystr) : Prop :=
  ~ In 0 t /\
  (forall c r, t = c :: r -> py_isspace c = false) /\
  (forall c r, t = r ++ [c] -> py_isspace c = false).

(** Every spelling held by every list object of the heap is stripped. *)
Definition heap_clean (s : St) : Prop :=
  map_Forall (fun _ l => Forall stripped_text l) (heap s).

(** Two states that code reading the file forward cannot tell apart: the
    same position, the same unread bytes and the same heap. *)
Definition same_view (s1 s2 : St) : Prop :=
  pos s1 = pos s2 /\ rest s1 = rest s2 /\ heap s1 = heap s2 /\ next s1 = next s2.

(** [m] gives the same result, and states it cannot tell apart, when run
    from states it cannot tell apart. *)
Definition sim {A} (m : M A) : Prop :=
  forall s1 s2, same_view s1 s2 ->
  fst (m s1) = fst (m s2) /\ same_view (snd (m s1)) (snd (m s2)).

(** [P] holds of the value a run returns, if it returns one. *)
Definition holds_on_success {A} (P : A -> Prop) (r : (PyExc + A) * St) : Prop :=
  match fst r with
  | inr a => P a
  | inl _ => True
  end.

(** ** Generic facts about the monad and the file operations *)

Lemma bind_step {A B} (m : M A) (k : A -> M B) s a s' :
  m s = (inr a, s') -> bind m k s = k a s'.
Proof. intros H. unfold bind. rewrite H. reflexivity. Qed.

Lemma read_eq n s :
  read n s = (inr (take n (rest s)), set_pos s (pos s + length (take n (rest s)))).
Proof. reflexivity. Qed.

Ltac step := erewrite bind_step; [| reflexivity]; cbv beta.

(** ** Text decoding never fails in permissive mode *)

Lemma decode_utf16le_ignore_aux n :
  forall b, (length b <= n)%nat -> is_Some (decode_utf16le Ignore b).
Proof.
  induction n as [|n IH]; intros b Hb.
  - destruct b; simpl in *; [eauto | lia].
  - destruct b as [|b0 [|b1 r]]; simpl in Hb |- *; eauto.
    destruct (_ || _).
    + destruct (IH r) as [t Ht]; [lia |]. rewrite Ht. simpl. eauto.
    + destruct (_ <? 0xDC00).
      * destruct r as [|c0 [|c1 r']]; eauto.
        destruct (_ && _).
        -- destruct (IH r') as [t Ht]; [simpl in Hb; lia |].
           rewrite Ht. simpl. eauto.
        -- apply IH. simpl in *. lia.
      * apply IH. lia.
Qed.

Lemma decode_utf16le_ignore_total b : is_Some (decode_utf16le Ignore b).
Proof. apply (decode_utf16le_ignore_aux (length b)). lia. Qed.

(** ** Facts about null removal and [str.strip()] *)

Lemma cut_at_null_no_null t : ~ In 0 (cut_at_null t).
Proof.
  induction t as [|c t IH]; simpl; [tauto |].
  destruct (Z.eqb_spec c 0) as [->|Hc]; simpl; [tauto |].
  intros [H|H]; [congruence | tauto].
Qed.

Lemma lstrip_suffix t : exists p, t = p ++ lstrip t.
Proof.
  induction t as [|c t [p Hp]]; simpl; [exists []; reflexivity |].
  destruct (py_isspace c).
  - exists (c :: p). simpl. rewrite <- Hp. reflexivity.
  - exists []. reflexivity.
Qed.

Lemma lstrip_head t c r : lstrip t = c :: r -> py_isspace c = false.
Proof.
  induction t as [|c' t IH]; simpl; [discriminate |].
  destruct (py_isspace c') eqn:E; [exact IH |].
  intros H. injection H as -> _. exact E.
Qed.

Lemma strip_In c t : In c (strip t) -> In c t.
Proof.
  unfold strip. intros H. apply in_rev in H.
  destruct (lstrip_suffix (rev (lstrip t))) as [p Hp].
  assert (H1 : In c (rev (lstrip t))) by (rewrite Hp; apply in_or_app; right; exact H).
  apply in_rev in H1.
  destruct (lstrip_suffix t) as [q Hq].
  rewrite Hq. apply in_or_app. right. exact H1.
Qed.

Lemma strip_first c r t : strip t = c :: r -> py_isspace c = false.
Proof.
  unfold strip. intros H.
  assert (Hu : lstrip (rev (lstrip t)) = rev r ++ [c]).
  { rewrite <- (rev_involutive (lstrip (rev (lstrip t)))), H. reflexivity. }
  destruct (lstrip_suffix (rev (lstrip t))) as [p Hp].
  rewrite Hu in Hp.
  apply (lstrip_head t c (rev (p ++ rev r))).
  rewrite <- (rev_involutive (lstrip t)), Hp.
  rewrite app_assoc, rev_app_distr. reflexivity.
Qed.

Lemma strip_last c r t : strip t = r ++ [c] -> py_isspace c = false.
Proof.
  unfold strip. intros H.
  apply (lstrip_head (rev (lstrip t)) c (rev r)).
  rewrite <- (rev_involutive (lstrip (rev (lstrip t)))), H.
  rewrite rev_app_distr. reflexivity.
Qed.

(** ** Text field reads *)

Lemma read_scel_field_text_eq g sp len s :
  read_scel_field_text g sp len s =
  (inr (strip (cut_at_null
     (match decode_utf16le Ignore (take len (drop sp (data s))) with
      | Some t => t
      | None => g (take len (drop sp (data s)))
      end))), s).
Proof. destruct s. reflexivity. Qed.

(** C5: for every byte span (here: every file, offset and width), the text
    field decoder returns a string without raising; the string contains no
    null code point and neither starts nor ends with whitespace. *)
Theorem field_text_total_clean (g : list Z -> pystr) (sp len : nat) (s : St) :
  exists t, fst (read_scel_field_text g sp len s) = inr t /\
    ~ In 0 t /\
    (forall c r, t = c :: r -> py_isspace c = false) /\
    (forall c r, t = r ++ [c] -> py_isspace c = false).
Proof.
  rewrite read_scel_field_text_eq. simpl.
  eexists. split; [reflexivity |]. split; [| split].
  - intros H. apply strip_In in H. revert H. apply cut_at_null_no_null.
  - intros c r; apply strip_first.
  - intros c r; apply strip_last.
Qed.

(** C7: a metadata text-field read leaves the cursor where it was (and the
    whole interpreter state unchanged). *)
Theorem field_text_restores_position (g : list Z -> pystr) (sp len : nat) (s : St) :
  pos (snd (read_scel_field_text g sp len s)) = pos s /\
  snd (read_scel_field_text g sp len s) = s.
Proof. rewrite read_scel_field_text_eq. split; reflexivity. Qed.

(** C10: the primary UTF-16LE decode of a text field runs with
    [errors='ignore'] and never raises, so the GBK branch is never taken:
    the field string is the primary decode, cut at the first null and
    stripped, whatever the GBK codec does. *)
Theorem field_text_primary_only (g : list Z -> pystr) (sp len : nat) (s : St) :
  exists t, decode_utf16le Ignore (take len (drop sp (data s))) = Some t /\
    fst (read_scel_field_text g sp len s) = inr (strip (cut_at_null t)).
Proof.
  destruct (decode_utf16le_ignore_total (take len (drop sp (data s)))) as [t Ht].
  exists t. split; [exact Ht |].
  rewrite read_scel_field_text_eq, Ht. reflexivity.
Qed.

Lemma read_scel_info_eq g c :
  read_scel_info g c =
  match take 4 (drop 0x124 c) with
  | [b0; b1; b2; b3] =>
      inr {| CountWord := py_str_of_int (b0 + Z.shiftl b1 8 + Z.shiftl b2 16 + Z.shiftl b3 24);
             Name := field_text g 0x130 64 c; Type_ := field_text g 0x338 64 c;
             Info := field_text g 0x540 1024 c; Sample := field_text g 0xD40 1024 c |}
  | _ => inl StructError
  end.
Proof.
  unfold read_scel_info, read_scel_info_m.
  cbn [bind seek read open_file set_pos pos data fst].
  destruct (take 4 (drop 292 c)) as [|b0 [|b1 [|b2 [|b3 [|b4 r]]]]];
    reflexivity.
Qed.

(** C8 (as amended): the metadata reader can only fail with [struct.error]
    on the 4-byte word count at 0x124, and fails exactly when the file is
    shorter than 0x124 + 4 = 0x128 bytes; text fields lying past the end of
    the file are read short and decoded without error. *)
Theorem read_scel_info_fails_iff (g : list Z -> pystr) (c : list Z) :
  (read_scel_info g c = inl StructError <-> (length c < 0x128)%nat) /\
  ((0x128 <= length c)%nat -> exists i, read_scel_info g c = inr i) /\
  (forall e, read_scel_info g c = inl e -> e = StructError).
Proof.
  rewrite read_scel_info_eq.
  assert (Hl : length (take 4 (drop 292 c)) = Nat.min 4 (length c - 292)).
  { rewrite length_take, length_drop. reflexivity. }
  destruct (take 4 (drop 292 c)) as [|b0 [|b1 [|b2 [|b3 [|b4 r]]]]];
    cbn [length] in Hl; repeat split; intros; try discriminate;
    try (eexists; reflexivity); try congruence;
    destruct (Nat.min_spec 4 (length c - 292)) as [[? Hm]|[? Hm]];
    rewrite Hm in Hl; lia.
Qed.

(** C8 counterexample: a file of 0x128 zero bytes is shorter than
    0xD40 + 1024 bytes, yet reading its metadata succeeds. *)
Lemma read_scel_info_short_file_ok :
  (length (repeat 0 0x128) < 0xD40 + 1024)%nat /\
  read_scel_info (fun _ => []) (repeat 0 0x128) =
  inr {| CountWord := [48]; Name := []; Type_ := []; Info := []; Sample := [] |}.
Proof. split; [rewrite repeat_length; lia | vm_compute; reflexivity]. Qed.

(** ** Reading a known prefix of the remaining input *)

Lemma rest_after s k : rest (set_pos s (pos s + k)) = drop k (rest s).
Proof. unfold rest. simpl. rewrite drop_drop. reflexivity. Qed.

Lemma read_app n s b r :
  rest s = b ++ r -> length b = n ->
  read n s = (inr b, set_pos s (pos s + n)) /\ rest (set_pos s (pos s + n)) = r.
Proof.
  intros H Hn. rewrite rest_after, H. subst n. split.
  - rewrite read_eq, H, take_app_length. reflexivity.
  - apply drop_app_length.
Qed.

Lemma read_short n s :
  (length (rest s) <= n)%nat ->
  read n s = (inr (rest s), set_pos s (pos s + length (rest s))) /\
  rest (set_pos s (pos s + length (rest s))) = [].
Proof.
  intros H. rewrite rest_after, drop_all. split; [| reflexivity].
  rewrite read_eq, take_ge by exact H. reflexivity.
Qed.

Lemma catch_ok {A} (m : M A) h s a s' :
  m s = (inr a, s') -> catch m h s = (inr a, s').
Proof. intros H. unfold catch. rewrite H. reflexivity. Qed.

(** When fewer than 4 bytes remain, [_parse_pinyin_word] reads them all and
    returns no entry. *)
Lemma parse_pinyin_word_short g d s :
  (length (rest s) < 4)%nat ->
  parse_pinyin_word g d s = (inr [], set_pos s (pos s + length (rest s))).
Proof.
  intros H. destruct (read_short 4 s) as [Hr _]; [lia |].
  unfold parse_pinyin_word. erewrite bind_step by exact Hr.
  replace (length (rest s) <? 4)%nat with true by (symmetry; apply Nat.ltb_lt; exact H).
  reflexivity.
Qed.

(** C4: once fewer than 4 bytes remain for a group header, the group loop
    of [parse_scel] adds no further entry, whatever number of groups is left,
    and raises nothing. *)
Theorem groups_stop_on_short_header (g : list Z -> pystr) (d : gmap Z pystr)
    (n : nat) (acc : list WordLibrary) (s : St) :
  (length (rest s) < 4)%nat -> fst (parse_groups g d n acc s) = inr acc.
Proof.
  revert s. induction n as [|n IH]; intros s H; [reflexivity |].
  simpl. erewrite bind_step.
  2:{ apply catch_ok. erewrite bind_step by (apply parse_pinyin_word_short; exact H).
      reflexivity. }
  rewrite app_nil_r. apply IH.
  destruct (read_short 4 s) as [_ Hr]; [lia |]. rewrite Hr. simpl. lia.
Qed.

(** Witness for C4: a 3-byte remainder and two groups still announced. *)
Lemma groups_stop_on_short_header_witness :
  (length (rest (open_file [1%Z; 2%Z; 3%Z])) < 4)%nat /\
  fst (parse_groups (fun _ => []) ∅ 2 [] (open_file [1; 2; 3])) = inr [].
Proof.
  split; [vm_compute; lia |].
  apply (groups_stop_on_short_header (fun _ => []) ∅ 2 [] (open_file [1; 2; 3])).
  vm_compute. lia.
Defined.

(** ** The index loop *)

Lemma alphabet_lookup j : (j < 26)%nat -> alphabet !! j = Some (97 + Z.of_nat j).
Proof. intros Hj. do 26 (destruct j as [|j]; [reflexivity |]). lia. Qed.

Lemma read_py_indices_aux n d wp :
  forall bytes s v, (length bytes <= n)%nat -> heap s !! wp = Some v ->
  read_py_indices d wp bytes s =
  (inr tt, set_heap s (<[wp := v ++ spells d bytes]> (heap s)) (next s)).
Proof.
  induction n as [|n IH]; intros bytes s v Hl Hv.
  - destruct bytes; [| simpl in Hl; lia].
    simpl. rewrite app_nil_r, insert_id by exact Hv. destruct s. reflexivity.
  - destruct bytes as [|b0 [|b1 r]].
    + simpl. rewrite app_nil_r, insert_id by exact Hv. destruct s. reflexivity.
    + simpl. rewrite app_nil_r, insert_id by exact Hv. destruct s. reflexivity.
    + simpl read_py_indices. unfold append at 1. erewrite bind_step by reflexivity.
      rewrite Hv. simpl default.
      rewrite (IH r _ (v ++ [spelling d (b0 + Z.shiftl b1 8)])).
      * simpl. rewrite insert_insert_eq, <- app_assoc. reflexivity.
      * simpl in Hl. lia.
      * simpl. apply lookup_insert_eq.
Qed.

Lemma read_py_indices_eq d wp bytes s v :
  heap s !! wp = Some v ->
  read_py_indices d wp bytes s =
  (inr tt, set_heap s (<[wp := v ++ spells d bytes]> (heap s)) (next s)).
Proof. apply (read_py_indices_aux (length bytes)). lia. Qed.

Lemma spells_lookup d k :
  forall bytes b0 b1, bytes !! (2 * k)%nat = Some b0 -> bytes !! (2 * k + 1)%nat = Some b1 ->
  spells d bytes !! k = Some (spelling d (b0 + Z.shiftl b1 8)).
Proof.
  induction k as [|k IH]; intros bytes b0 b1 H0 H1;
    destruct bytes as [|c0 [|c1 r]]; try discriminate.
  - simpl in *. congruence.
  - simpl. apply IH.
    + replace (2 * S k)%nat with (S (S (2 * k))) in H0 by lia. exact H0.
    + replace (2 * S k + 1)%nat with (S (S (2 * k + 1))) in H1 by lia. exact H1.
Qed.

(** C2: for an index absent from [py_dict], the spelling appended to the
    group's list [word_py] is the single character at position [idx mod 26]
    of the alphabet a..z; the result depends only on the index. *)
Theorem fallback_spelling_at_index (d : gmap Z pystr) (wp : loc) (py_data : list Z)
    (s : St) (v : list pystr) (k : nat) (b0 b1 : Z) :
  heap s !! wp = Some v ->
  py_data !! (2 * k)%nat = Some b0 -> py_data !! (2 * k + 1)%nat = Some b1 ->
  d !! (b0 + Z.shiftl b1 8) = None ->
  exists a v',
    alphabet !! Z.to_nat ((b0 + Z.shiftl b1 8) mod 26) = Some a /\
    heap (snd (read_py_indices d wp py_data s)) !! wp = Some v' /\
    v' !! (length v + k)%nat = Some [a].
Proof.
  intros Hv H0 H1 Hd.
  set (idx := b0 + Z.shiftl b1 8) in *.
  assert (Hm : 0 <= idx mod 26 < 26) by (apply Z.mod_pos_bound; lia).
  exists (97 + idx mod 26), (v ++ spells d py_data).
  split; [| split].
  - rewrite alphabet_lookup by lia. rewrite Z2Nat.id by lia. reflexivity.
  - rewrite (read_py_indices_eq d wp py_data s v Hv). simpl. apply lookup_insert_eq.
  - rewrite lookup_app_r by lia. replace (length v + k - length v)%nat with k by lia.
    rewrite (spells_lookup d k py_data b0 b1 H0 H1).
    unfold spelling. fold idx. rewrite Hd. reflexivity.
Qed.

(** Witness for C2: index 5 with an empty table gives "f". *)
Lemma fallback_spelling_at_index_witness :
  exists a v', alphabet !! Z.to_nat ((5 + Z.shiftl 0 8) mod 26) = Some a /\
    heap (snd (read_py_indices ∅ 0 [5; 0] (set_heap (open_file []) {[0%nat := []]} 1)))
      !! 0%nat = Some v' /\ v' !! (length (@nil pystr) + 0)%nat = Some [a].
Proof.
  apply (fallback_spelling_at_index ∅ 0 [5; 0] (set_heap (open_file []) {[0%nat := []]} 1) [] 0 5 0);
    reflexivity.
Defined.

(** ** The homophone loop *)

Lemma read_homophones_spec g n wp :
  forall ws s v, heap s !! wp = Some v -> (wp < next s)%nat ->
  exists ws' s', read_homophones g n wp ws s = (inr (ws ++ ws'), s') /\
    map pinyin ws' = seq (next s) (length ws') /\
    next s' = (next s + length ws')%nat /\
    (forall l, (next s <= l < next s')%nat -> heap s' !! l = Some v) /\
    (forall l, (l < next s)%nat -> heap s' !! l = heap s !! l).
Proof.
  induction n as [|n IH]; intros ws s v Hv Hwp.
  - exists [], s. rewrite app_nil_r. repeat split; intros; simpl; try reflexivity; lia.
  - simpl read_homophones. step.
    destruct (_ <? 2)%nat.
    + eexists [], _. rewrite app_nil_r. split; [reflexivity |].
      simpl. repeat split; intros; try reflexivity; lia.
    + step. step.
      unfold copy at 1. erewrite bind_step by reflexivity. simpl heap.
      rewrite Hv. simpl default.
      match goal with
      | |- exists _ _, read_homophones _ _ _ ?w ?st = _ /\ _ =>
          destruct (IH w st v) as (ws'' & s' & Hrun & Hmap & Hnext & Hnew & Hold)
      end.
      { simpl. rewrite lookup_insert_ne by lia. exact Hv. }
      { simpl. lia. }
      eexists (_ :: ws''), s'. rewrite Hrun, <- app_assoc. split; [reflexivity |].
      simpl in Hmap, Hnext, Hnew, Hold |- *.
      split; [rewrite Hmap; reflexivity |]. split; [lia |]. split.
      * intros l Hl. destruct (decide (l = next s)) as [->|Hne].
        -- rewrite Hold by lia. apply lookup_insert_eq.
        -- apply Hnew. lia.
      * intros l Hl. rewrite Hold by lia. apply lookup_insert_ne. lia.
Qed.

(** ** One entry group *)

(** The first steps of [_parse_pinyin_word] on a complete header: the index
    bytes are read, [word_py] is allocated at [next s] and filled with their
    spellings, and the homophone loop runs on the state reached. *)
Lemma parse_pinyin_word_header g d s h0 h1 h2 h3 r0 :
  rest s = [h0; h1; h2; h3] ++ r0 ->
  let cnt := Z.to_nat (h2 + Z.shiftl h3 8) in
  let py_data := take cnt r0 in
  let s3 := set_heap (set_pos s (pos s + 4 + length py_data))
              (<[next s := spells d py_data]> (heap s)) (S (next s)) in
  rest s3 = drop (length py_data) r0 /\
  parse_pinyin_word g d s =
  read_homophones g (Z.to_nat (h0 + Z.shiftl h1 8)) (next s) [] s3.
Proof.
  intros E cnt py_data s3. split.
  { unfold s3. change (drop (pos s + 4 + length py_data) (data s) = drop (length py_data) r0).
    rewrite <- !drop_drop. change (drop (length py_data) (drop 4 (rest s)) = drop (length py_data) r0).
    rewrite E. reflexivity. }
  destruct (read_app 4 s [h0; h1; h2; h3] r0 E eq_refl) as [Hr Hrest].
  unfold parse_pinyin_word. erewrite bind_step by exact Hr.
  cbn [length Nat.ltb Nat.leb nth].
  erewrite bind_step by (rewrite read_eq, Hrest; reflexivity).
  erewrite bind_step by reflexivity.
  erewrite bind_step.
  2:{ apply read_py_indices_eq. simpl. apply lookup_insert_eq. }
  simpl. rewrite insert_insert_eq. reflexivity.
Qed.

Lemma parse_pinyin_word_spec g d s :
  exists ws s' v, parse_pinyin_word g d s = (inr ws, s') /\
    NoDup (map pinyin ws) /\
    Forall (fun e => heap s' !! pinyin e = Some v) ws /\
    (forall h0 h1 h2 h3 r0, rest s = [h0; h1; h2; h3] ++ r0 ->
       v = spells d (take (Z.to_nat (h2 + Z.shiftl h3 8)) r0)) /\
    Forall (fun e => (next s <= pinyin e < next s')%nat) ws /\
    (forall l, (l < next s)%nat -> heap s' !! l = heap s !! l).
Proof.
  destruct (rest s) as [|h0 [|h1 [|h2 [|h3 r0]]]] eqn:E;
    try (eexists [], _, []; rewrite parse_pinyin_word_short by (rewrite E; simpl; lia);
         split; [reflexivity |]; split; [constructor |]; split; [constructor |];
         split; [intros ? ? ? ? ? Hc; simpl in Hc; discriminate |];
         split; [constructor | reflexivity]).
  destruct (parse_pinyin_word_header g d s h0 h1 h2 h3 r0 E) as [_ ->].
  set (v := spells d (take (Z.to_nat (h2 + Z.shiftl h3 8)) r0)).
  match goal with
  | |- context [read_homophones _ _ _ [] ?st] =>
      destruct (read_homophones_spec g (Z.to_nat (h0 + Z.shiftl h1 8)) (next s) [] st v)
        as (ws & s' & Hrun & Hmap & Hnext & Hnew & Hold)
  end.
  { simpl. apply lookup_insert_eq. }
  { simpl. lia. }
  simpl in Hmap, Hnext, Hnew, Hold.
  assert (Hrange : Forall (fun e => (S (next s) <= pinyin e < next s')%nat) ws).
  { apply Forall_forall. intros e He. apply list_elem_of_In in He.
    assert (Hin : In (pinyin e) (seq (S (next s)) (length ws)))
      by (rewrite <- Hmap; apply in_map; exact He).
    apply in_seq in Hin. simpl in Hnext. lia. }
  exists ws, s', v. rewrite Hrun. simpl in *. split; [reflexivity |].
  split; [| split; [| split; [| split]]].
  - rewrite Hmap. apply NoDup_seq.
  - eapply Forall_impl; [exact Hrange |]. intros e He. apply Hnew. exact He.
  - intros ? ? ? ? ? H. injection H as -> -> -> -> ->. reflexivity.
  - eapply Forall_impl; [exact Hrange |]. intros e He. simpl in He. lia.
  - intros l Hl. rewrite Hold by lia. apply lookup_insert_ne. lia.
Qed.

Lemma length_spells_aux d n :
  forall bytes, (length bytes <= n)%nat -> length (spells d bytes) = (length bytes / 2)%nat.
Proof.
  induction n as [|n IH]; intros bytes Hl.
  - destruct bytes; [reflexivity | simpl in Hl; lia].
  - destruct bytes as [|b0 [|b1 r]]; try reflexivity.
    simpl length. simpl in Hl. rewrite IH by lia.
    replace (S (S (length r))) with (length r + 1 * 2)%nat by lia.
    rewrite Nat.div_add by lia. lia.
Qed.

Lemma length_spells d bytes : length (spells d bytes) = (length bytes / 2)%nat.
Proof. apply (length_spells_aux d (length bytes)). lia. Qed.

(** C6: the entries of one group all see element-wise equal spelling lists,
    and each entry holds its own list object: assigning a new content to one
    entry's list leaves every sibling's list unchanged.  The lists are fresh
    objects, and parsing a group never changes an older object, so parsing
    the later groups leaves them as they are. *)
Theorem group_pinyin_independent_copies (g : list Z -> pystr) (d : gmap Z pystr) (s : St) :
  exists ws s', parse_pinyin_word g d s = (inr ws, s') /\
    (exists v, Forall (fun e => heap s' !! pinyin e = Some v) ws) /\
    (forall (i j : nat) (e1 e2 : WordLibrary) (x : list pystr),
       ws !! i = Some e1 -> ws !! j = Some e2 -> i <> j ->
       pinyin e1 <> pinyin e2 /\
       (<[pinyin e1 := x]> (heap s')) !! pinyin e2 = heap s' !! pinyin e2) /\
    Forall (fun e => (next s <= pinyin e < next s')%nat) ws /\
    (forall l, (l < next s)%nat -> heap s' !! l = heap s !! l).
Proof.
  destruct (parse_pinyin_word_spec g d s) as (ws & s' & v & Hrun & Hnd & Hall & _ & Hrange & Hframe).
  exists ws, s'. split; [exact Hrun |]. split; [exists v; exact Hall |].
  split; [| split; [exact Hrange | exact Hframe]].
  intros i j e1 e2 x Hi Hj Hij.
  assert (Hne : pinyin e1 <> pinyin e2).
  { intros Heq. apply Hij. apply (NoDup_lookup (map pinyin ws) i j (pinyin e1) Hnd).
    - rewrite list_lookup_fmap, Hi. reflexivity.
    - rewrite list_lookup_fmap, Hj, Heq. reflexivity. }
  split; [exact Hne |]. apply lookup_insert_ne. exact Hne.
Qed.

(** C9: when the index bytes of a group are all present, every entry of the
    group gets a spelling list of length [phoneticIndexByteLength / 2]. *)
Theorem group_pinyin_length (g : list Z -> pystr) (d : gmap Z pystr) (s : St)
    (h0 h1 h2 h3 : Z) (r0 : list Z) :
  rest s = [h0; h1; h2; h3] ++ r0 -> 0 <= h2 < 256 -> 0 <= h3 < 256 ->
  (Z.to_nat (h2 + Z.shiftl h3 8) <= length r0)%nat ->
  exists ws s', parse_pinyin_word g d s = (inr ws, s') /\
    Forall (fun e => exists l, heap s' !! pinyin e = Some l /\
                       Z.of_nat (length l) = (h2 + Z.shiftl h3 8) / 2) ws.
Proof.
  intros E H2 H3 Hlen.
  destruct (parse_pinyin_word_spec g d s) as (ws & s' & v & Hrun & _ & Hall & Hv & _).
  exists ws, s'. split; [exact Hrun |].
  specialize (Hv h0 h1 h2 h3 r0 E).
  eapply Forall_impl; [exact Hall |]. intros e He. exists v. split; [exact He |].
  rewrite Hv, length_spells, length_take.
  rewrite Nat.min_l by exact Hlen.
  rewrite Nat2Z.inj_div, Z2Nat.id; [reflexivity |].
  rewrite Z.shiftl_mul_pow2 by lia. lia.
Qed.

(** Witness for C9: three index bytes (one complete pair and an odd byte)
    and one homophone give a one-element spelling list. *)
Lemma group_pinyin_length_witness :
  exists ws s', parse_pinyin_word (fun _ => []) ∅ (open_file [1; 0; 3; 0; 5; 0; 9; 0; 0]) = (inr ws, s') /\
    Forall (fun e => exists l, heap s' !! pinyin e = Some l /\
                       Z.of_nat (length l) = (3 + Z.shiftl 0 8) / 2) ws.
Proof.
  apply (group_pinyin_length (fun _ => []) ∅ (open_file [1; 0; 3; 0; 5; 0; 9; 0; 0]) 1 0 3 0 [5; 0; 9; 0; 0]);
    try reflexivity; try lia.
  vm_compute. lia.
Defined.

(** ** Reading well-formed records *)

Lemma le16_val n : 0 <= n -> n mod 256 + Z.shiftl (n / 256) 8 = n.
Proof.
  intros Hn. rewrite Z.shiftl_mul_pow2 by lia.
  pose proof (Z.div_mod n 256). change (2 ^ 8) with 256. lia.
Qed.

Lemma read_homophones_records g wp :
  forall recs n ws s v tail,
  heap s !! wp = Some v -> (wp < next s)%nat -> Forall record_wf recs ->
  (length recs <= n)%nat ->
  rest s = concat (map enc_record recs) ++ tail ->
  exists ws' s',
    read_homophones g n wp ws s = read_homophones g (n - length recs) wp (ws ++ ws') s' /\
    map word ws' = map (record_word g) recs /\ rest s' = tail /\
    heap s' !! wp = Some v /\ (wp < next s')%nat.
Proof.
  induction recs as [|r recs IH]; intros n ws s v tail Hv Hwp Hwf Hn E.
  - exists [], s. rewrite app_nil_r, Nat.sub_0_r. repeat split; auto.
  - destruct n as [|n]; [simpl in Hn; lia |].
    inversion Hwf as [|? ? [Hr1 Hr2] Hwf']; subst.
    destruct r as [w t]. simpl in Hr1, Hr2.
    cbn [map concat] in E. unfold enc_record at 1 in E. simpl fst in E. simpl snd in E.
    rewrite <- !app_assoc in E.
    simpl read_homophones.
    destruct (read_app 2 s _ _ E eq_refl) as [Hr Hrest].
    erewrite bind_step by exact Hr.
    cbn [le16 length Nat.ltb Nat.leb nth].
    rewrite le16_val by lia. rewrite Nat2Z.id.
    destruct (read_app (length w) _ w _ Hrest eq_refl) as [Hr' Hrest'].
    erewrite bind_step by exact Hr'.
    destruct (read_app 12 _ t _ Hrest' Hr2) as [Hr'' Hrest''].
    erewrite bind_step by exact Hr''.
    unfold copy at 1. erewrite bind_step by reflexivity.
    simpl heap. rewrite Hv. simpl default.
    match goal with
    | |- exists _ _, read_homophones _ _ _ ?w0 ?st = _ /\ _ =>
        destruct (IH n w0 st v tail) as (ws'' & s' & Hrun & Hmap & Hrt & Hv' & Hwp')
    end.
    + simpl. rewrite lookup_insert_ne by lia. exact Hv.
    + simpl. lia.
    + exact Hwf'.
    + simpl in Hn. lia.
    + rewrite <- Hrest''. reflexivity.
    + eexists (_ :: ws''), s'. rewrite Hrun, <- app_assoc. simpl.
      split; [reflexivity |]. split; [rewrite Hmap; reflexivity |]. auto.
Qed.

(** A group whose header announces [hc] homophones and whose index bytes are
    all present, followed by complete records [recs] (at most [hc]): the
    records are read one entry each, and the loop is left with
    [hc - length recs] iterations on what follows. *)
Lemma parse_pinyin_word_records g d s hc idx recs tail :
  rest s = le16 hc ++ le16 (Z.of_nat (length idx)) ++ idx ++
           concat (map enc_record recs) ++ tail ->
  0 <= hc -> Forall record_wf recs -> (length recs <= Z.to_nat hc)%nat ->
  exists ws' s' wp v,
    parse_pinyin_word g d s = read_homophones g (Z.to_nat hc - length recs) wp ws' s' /\
    map word ws' = map (record_word g) recs /\ rest s' = tail /\
    heap s' !! wp = Some v /\ (wp < next s')%nat.
Proof.
  intros E Hhc Hwf Hn.
  set (L := Z.of_nat (length idx)) in E.
  set (X := idx ++ concat (map enc_record recs) ++ tail) in E.
  destruct (parse_pinyin_word_header g d s (hc mod 256) (hc / 256) (L mod 256) (L / 256) X)
    as [Hrest ->]; [exact E |].
  rewrite !le16_val in * by lia.
  unfold L in *. rewrite !Nat2Z.id in *.
  assert (Htk : take (length idx) X = idx) by apply take_app_length.
  rewrite Htk in *.
  match goal with
  | |- exists _ _ _ _, read_homophones _ _ _ _ ?st = _ /\ _ =>
      destruct (read_homophones_records g (next s) recs (Z.to_nat hc) [] st
                  (spells d idx) tail) as (ws' & s' & Hrun & Hmap & Hrt & Hv & Hwp)
  end.
  - simpl. apply lookup_insert_eq.
  - simpl. lia.
  - exact Hwf.
  - exact Hn.
  - rewrite Hrest. unfold X. apply drop_app_length.
  - exists ws', s', (next s), (spells d idx). rewrite Hrun. auto.
Qed.

Lemma read_homophones_break g m wp ws s :
  (length (rest s) < 2)%nat ->
  fst (read_homophones g (S m) wp ws s) = inr ws.
Proof.
  intros H. destruct (read_short 2 s) as [Hr _]; [lia |].
  simpl read_homophones. erewrite bind_step by exact Hr.
  replace (length (rest s) <? 2)%nat with true by (symmetry; apply Nat.ltb_lt; exact H).
  reflexivity.
Qed.

(** A record whose 2-byte length prefix is present yields an entry, however
    short its text and trailer are. *)
Lemma read_homophones_prefix_entry g m wp ws s v :
  heap s !! wp = Some v -> (wp < next s)%nat -> (2 <= length (rest s))%nat ->
  exists ws' s', read_homophones g (S m) wp ws s = (inr (ws ++ ws'), s') /\
    (1 <= length ws')%nat.
Proof.
  intros Hv Hwp Hl.
  destruct (rest s) as [|a [|b r]] eqn:E; simpl in Hl; try lia.
  destruct (read_app 2 s [a; b] r E eq_refl) as [Hr _].
  simpl read_homophones. erewrite bind_step by exact Hr.
  cbn [length Nat.ltb Nat.leb nth].
  step. step.
  unfold copy at 1. erewrite bind_step by reflexivity.
  simpl heap. rewrite Hv. simpl default.
  match goal with
  | |- exists _ _, read_homophones _ _ _ ?w0 ?st = _ /\ _ =>
      destruct (read_homophones_spec g m wp w0 st v) as (ws'' & s' & Hrun & _)
  end.
  - simpl. rewrite lookup_insert_ne by lia. exact Hv.
  - simpl. lia.
  - eexists (_ :: ws''), s'. rewrite Hrun, <- app_assoc. split; [reflexivity |]. simpl. lia.
Qed.

(** C3 (as amended): for a group announcing more homophones than it has
    complete records, the homophone loop stops, without raising, only when
    fewer than 2 bytes are left for a word-length prefix: if the stream ends
    right after the complete records (fewer than 2 bytes follow) the group
    yields exactly their entries, in order; if 2 or more bytes follow, at
    least one more entry is produced from them. *)
Theorem group_stops_at_length_prefix (g : list Z -> pystr) (d : gmap Z pystr) (s : St)
    (hc : Z) (idx : list Z) (recs : list (list Z * list Z)) (tail : list Z) :
  rest s = le16 hc ++ le16 (Z.of_nat (length idx)) ++ idx ++
           concat (map enc_record recs) ++ tail ->
  0 <= hc < 65536 -> Z.of_nat (length idx) < 65536 -> Forall record_wf recs ->
  (length recs < Z.to_nat hc)%nat ->
  exists ws s', parse_pinyin_word g d s = (inr ws, s') /\
    ((length tail < 2)%nat -> map word ws = map (record_word g) recs) /\
    ((2 <= length tail)%nat -> (length recs < length ws)%nat).
Proof.
  intros E Hhc Hidx Hwf Hn.
  destruct (parse_pinyin_word_records g d s hc idx recs tail E) as
    (ws' & s' & wp & v & -> & Hmap & Hrt & Hv & Hwp); [lia | exact Hwf | lia |].
  destruct (Z.to_nat hc - length recs)%nat as [|m] eqn:Hm; [lia |].
  destruct (Nat.lt_ge_cases (length tail) 2) as [Hs|Hs].
  - destruct (read_homophones g (S m) wp ws' s') as [r s''] eqn:Hrun.
    pose proof (read_homophones_break g m wp ws' s') as Hb.
    rewrite Hrt, Hrun in Hb. specialize (Hb Hs). simpl in Hb. subst r.
    exists ws', s''. split; [reflexivity |]. split; [intros; exact Hmap | lia].
  - destruct (read_homophones_prefix_entry g m wp ws' s' v Hv Hwp) as (ws'' & s'' & Hrun & Hl);
      [rewrite Hrt; exact Hs |].
    exists (ws' ++ ws''), s''. split; [exact Hrun |]. split; [lia |].
    intros _. rewrite length_app.
    apply (f_equal length) in Hmap. rewrite !length_map in Hmap. lia.
Qed.

(** Witness for C3: homophoneCount 3, one index, two complete records and
    nothing after them. *)
Lemma group_stops_at_length_prefix_witness :
  exists ws s',
    parse_pinyin_word (fun _ => []) ∅
      (open_file (le16 3 ++ le16 2 ++ [0; 0] ++
         concat (map enc_record [([0x88; 0x59], repeat 0 12); ([0xBB; 0x9E], repeat 0 12)]) ++ []))
    = (inr ws, s') /\
    ((length (@nil Z) < 2)%nat ->
       map word ws = map (record_word (fun _ => []))
                       [([0x88; 0x59], repeat 0 12); ([0xBB; 0x9E], repeat 0 12)]) /\
    ((2 <= length (@nil Z))%nat ->
       (length [([0x88; 0x59], repeat 0 12); ([0xBB; 0x9E], repeat 0 12)] < length ws)%nat).
Proof.
  apply (group_stops_at_length_prefix (fun _ => []) ∅
    (open_file (le16 3 ++ le16 2 ++ [0; 0] ++
       concat (map enc_record [([0x88; 0x59], repeat 0 12); ([0xBB; 0x9E], repeat 0 12)]) ++ []))
    3 [0; 0] [([0x88; 0x59], repeat 0 12); ([0xBB; 0x9E], repeat 0 12)] []).
  - reflexivity.
  - lia.
  - simpl. lia.
  - constructor; [split; [simpl; lia | reflexivity] |].
    constructor; [split; [simpl; lia | reflexivity] |].
    constructor.
  - simpl. lia.
Defined.

(** C3 counterexample: homophoneCount 3, two complete records, then two
    more bytes [0; 0]: they are read as the length prefix of a third record,
    which yields a third entry (with an empty word). *)
Lemma group_third_entry_from_two_bytes :
  Forall record_wf [([0x88; 0x59], repeat 0 12); ([0xBB; 0x9E], repeat 0 12)] /\
  (match fst (parse_pinyin_word (fun _ => []) ∅
          (open_file (le16 3 ++ le16 2 ++ [0; 0] ++
             concat (map enc_record [([0x88; 0x59], repeat 0 12); ([0xBB; 0x9E], repeat 0 12)])
             ++ [0; 0]))) with
   | inr ws => length ws
   | inl _ => 0%nat
   end) = 3%nat.
Proof.
  split.
  - constructor; [split; [simpl; lia | reflexivity] |].
    constructor; [split; [simpl; lia | reflexivity] |].
    constructor.
  - vm_compute. reflexivity.
Qed.

(** ** Well-formed files *)

Lemma le32_val n :
  0 <= n ->
  n mod 256 + Z.shiftl ((n / 256) mod 256) 8 + Z.shiftl ((n / 65536) mod 256) 16 +
  Z.shiftl (n / 16777216) 24 = n.
Proof.
  intros Hn. rewrite !Z.shiftl_mul_pow2 by lia.
  change (2 ^ 8) with 256. change (2 ^ 16) with 65536. change (2 ^ 24) with 16777216.
  replace 65536 with (256 * 256) by reflexivity.
  replace 16777216 with (256 * 256 * 256) by reflexivity.
  rewrite <- !Z.div_div by lia.
  pose proof (Z.div_mod n 256).
  pose proof (Z.div_mod (n / 256) 256).
  pose proof (Z.div_mod (n / 256 / 256) 256).
  lia.
Qed.

Lemma read_py_table_entries g :
  forall tab d s tail, Forall entry_wf tab ->
  rest s = concat (map enc_entry tab) ++ tail ->
  exists d' s', read_py_table g (length tab) d s = (inr d', s') /\ rest s' = tail.
Proof.
  induction tab as [|[i sp] tab IH]; intros d s tail Hwf E.
  - exists d, s. split; [reflexivity | exact E].
  - inversion Hwf as [|? ? [Hi Hsp] Hwf']; subst. simpl in Hi, Hsp.
    cbn [map concat] in E. unfold enc_entry at 1 in E. simpl fst in E. simpl snd in E.
    rewrite <- !app_assoc in E.
    simpl length. cbn [read_py_table].
    destruct (read_app 2 s _ _ E eq_refl) as [Hr Hrest].
    erewrite bind_step by exact Hr.
    unfold le16 at 1. cbn [unpack_H]. erewrite bind_step by reflexivity.
    destruct (read_app 2 _ _ _ Hrest eq_refl) as [Hr' Hrest'].
    erewrite bind_step by exact Hr'.
    unfold le16 at 1. cbn [unpack_H]. erewrite bind_step by reflexivity.
    rewrite le16_val by lia. rewrite Nat2Z.id.
    destruct (read_app (length sp) _ sp _ Hrest' eq_refl) as [Hr'' Hrest''].
    erewrite bind_step by exact Hr''.
    apply IH; [exact Hwf' | exact Hrest''].
Qed.

Lemma parse_pinyin_word_group g d s gr tail :
  group_wf gr -> rest s = enc_group gr ++ tail ->
  exists ws s', parse_pinyin_word g d s = (inr ws, s') /\
    map word ws = map (record_word g) (g_records gr) /\ rest s' = tail.
Proof.
  intros (Hn & Hi & Hwf) E. unfold enc_group in E. rewrite <- !app_assoc in E.
  destruct (parse_pinyin_word_records g d s (Z.of_nat (length (g_records gr)))
              (g_indices gr) (g_records gr) tail E) as
    (ws' & s' & wp & v & -> & Hmap & Hrt & _); [lia | exact Hwf | lia |].
  rewrite Nat2Z.id, Nat.sub_diag. exists ws', s'. auto.
Qed.

Lemma parse_groups_wf g d :
  forall gs acc s tail, Forall group_wf gs ->
  rest s = concat (map enc_group gs) ++ tail ->
  exists chunks s', parse_groups g d (length gs) acc s = (inr (acc ++ concat chunks), s') /\
    Forall2 (fun c gr => map word c = map (record_word g) (g_records gr)) chunks gs.
Proof.
  induction gs as [|gr gs IH]; intros acc s tail Hwf E.
  - exists [], s. rewrite app_nil_r. split; [reflexivity | constructor].
  - inversion Hwf as [|? ? Hg Hwf']; subst.
    cbn [map concat] in E. rewrite <- app_assoc in E.
    destruct (parse_pinyin_word_group g d s gr _ Hg E) as (ws & s' & Hrun & Hmap & Hrt).
    simpl length. cbn [parse_groups].
    erewrite bind_step.
    2:{ apply catch_ok. erewrite bind_step by exact Hrun. reflexivity. }
    destruct (IH (acc ++ ws) s' tail Hwf' Hrt) as (chunks & s'' & Hrun' & Hall).
    exists (ws :: chunks), s''. rewrite Hrun'. simpl. rewrite app_assoc.
    split; [reflexivity | constructor; assumption].
Qed.

Lemma Forall2_chunks_length g (chunks : list (list WordLibrary)) gs :
  Forall2 (fun c gr => map word c = map (record_word g) (g_records gr)) chunks gs ->
  length (concat chunks) = sum_list (map (fun gr => length (g_records gr)) gs).
Proof.
  induction 1 as [|c gr chunks gs Hc _ IH]; [reflexivity |].
  simpl. rewrite length_app, IH.
  apply (f_equal length) in Hc. rewrite !length_map in Hc. rewrite Hc. reflexivity.
Qed.

(** C1: for a well-formed file (fixed header region of 0x1540 bytes whose
    group count at 0x120 is the number of groups, a phonetic table, then the
    announced groups, each with exactly [homophoneCount] complete records),
    [parse_scel] returns one chunk of entries per group, in file order; each
    group's chunk has one entry per record, in on-disk order, so the number
    of entries is the sum of the groups' [homophoneCount]. *)
Theorem parse_scel_entry_count (g : list Z -> pystr) (pre : list Z)
    (tab : list (Z * list Z)) (gs : list GroupBytes) (tail : list Z) :
  length pre = 0x1540%nat ->
  take 4 (drop 0x120 pre) = le32 (Z.of_nat (length gs)) ->
  Z.of_nat (length tab) < 4294967296 -> Z.of_nat (length gs) < 4294967296 ->
  Forall entry_wf tab -> Forall group_wf gs ->
  exists chunks ws s',
    parse_scel g (pre ++ le32 (Z.of_nat (length tab)) ++ concat (map enc_entry tab) ++
                  concat (map enc_group gs) ++ tail) = (inr ws, s') /\
    ws = concat chunks /\
    Forall2 (fun c gr => map word c = map (record_word g) (g_records gr)) chunks gs /\
    length ws = sum_list (map (fun gr => length (g_records gr)) gs).
Proof.
  intros Hpre Hcnt Htab Hgs Hwt Hwg.
  set (Y := le32 (Z.of_nat (length tab)) ++ concat (map enc_entry tab) ++
            concat (map enc_group gs) ++ tail).
  assert (Hhead : take 4 (drop 0x120 (pre ++ Y)) = le32 (Z.of_nat (length gs))).
  { rewrite drop_app_le by (rewrite Hpre; apply Nat.leb_le; reflexivity).
    rewrite take_app_le by (rewrite length_drop, Hpre; apply Nat.leb_le; reflexivity).
    exact Hcnt. }
  assert (Htable : drop 0x1540 (pre ++ Y) = Y) by (apply drop_app_length'; symmetry; exact Hpre).
  unfold parse_scel, parse_scel_m.
  erewrite bind_step by reflexivity.
  erewrite bind_step.
  2:{ rewrite read_eq.
      change (rest (set_pos (open_file (pre ++ Y)) 0x120)) with (drop 0x120 (pre ++ Y)).
      rewrite Hhead. reflexivity. }
  unfold le32 at 1. cbn [unpack_I]. erewrite bind_step by reflexivity.
  rewrite le32_val by lia. rewrite Nat2Z.id.
  erewrite bind_step by reflexivity.
  match goal with
  | |- context [bind (read 4) _ ?st] =>
      assert (E2 : rest st = le32 (Z.of_nat (length tab)) ++
                   (concat (map enc_entry tab) ++ concat (map enc_group gs) ++ tail))
        by exact Htable;
      destruct (read_app 4 st _ _ E2 eq_refl) as [Hr Hrest]
  end.
  erewrite bind_step by exact Hr.
  unfold le32 at 1. cbn [unpack_I]. erewrite bind_step by reflexivity.
  rewrite le32_val by lia. rewrite Nat2Z.id.
  destruct (read_py_table_entries g tab ∅ _ _ Hwt Hrest) as (d & s1 & Hrt & Hrest1).
  erewrite bind_step by exact Hrt.
  destruct (parse_groups_wf g d gs [] s1 tail Hwg Hrest1) as (chunks & s2 & Hrg & Hall).
  exists chunks, (concat chunks), s2. rewrite Hrg. simpl.
  split; [reflexivity |]. split; [reflexivity |]. split; [exact Hall |].
  apply (Forall2_chunks_length g). exact Hall.
Qed.

(** Witness for C1: the file of the spec's scenario A (table {0: "ma"}, one
    group of two homophones on index 0). *)
Lemma parse_scel_entry_count_witness :
  exists chunks ws s',
    parse_scel (fun _ => [])
      ((repeat 0 0x120 ++ le32 1 ++ repeat 0 (0x1540 - 0x124)) ++
       le32 (Z.of_nat (length [(0, [109; 0; 97; 0])])) ++
       concat (map enc_entry [(0, [109; 0; 97; 0])]) ++
       concat (map enc_group [{| g_indices := [0; 0];
                                  g_records := [([0x88; 0x59], repeat 0 12);
                                                ([0xBB; 0x9E], repeat 0 12)] |}]) ++ [])
    = (inr ws, s') /\
    ws = concat chunks /\
    Forall2 (fun c gr => map word c = map (record_word (fun _ => [])) (g_records gr)) chunks
      [{| g_indices := [0; 0];
          g_records := [([0x88; 0x59], repeat 0 12); ([0xBB; 0x9E], repeat 0 12)] |}] /\
    length ws = sum_list (map (fun gr => length (g_records gr))
      [{| g_indices := [0; 0];
          g_records := [([0x88; 0x59], repeat 0 12); ([0xBB; 0x9E], repeat 0 12)] |}]).
Proof.
  apply (parse_scel_entry_count (fun _ => [])
    (repeat 0 0x120 ++ le32 1 ++ repeat 0 (0x1540 - 0x124))
    [(0, [109; 0; 97; 0])]
    [{| g_indices := [0; 0];
        g_records := [([0x88; 0x59], repeat 0 12); ([0xBB; 0x9E], repeat 0 12)] |}] []).
  - vm_compute. reflexivity.
  - vm_compute. reflexivity.
  - simpl. lia.
  - simpl. lia.
  - constructor; [split; simpl; lia | constructor].
  - constructor; [| constructor].
    split; [simpl; lia |]. split; [simpl; lia |].
    constructor; [split; [simpl; lia | reflexivity] |].
    constructor; [split; [simpl; lia | reflexivity] |].
    constructor.
Defined.

(** ** The group loop never takes its [except] branch *)

Lemma parse_pinyin_word_ok g d s :
  exists ws s', parse_pinyin_word g d s = (inr ws, s').
Proof.
  destruct (parse_pinyin_word_spec g d s) as (ws & s' & _ & Hrun & _). eauto.
Qed.

(** Every entry group is parsed without an exception reaching the
    [try/except] of [parse_scel]: each iteration extends the list with what
    [_parse_pinyin_word] returns and the realignment read is never done; the
    loop as a whole never raises and only appends to [word_libraries]. *)
Theorem parse_groups_no_recovery (g : list Z -> pystr) (d : gmap Z pystr) :
  (forall n acc s, exists ws s', parse_groups g d n acc s = (inr (acc ++ ws), s')) /\
  (forall n acc s, exists ws s1, parse_pinyin_word g d s = (inr ws, s1) /\
     parse_groups g d (S n) acc s = parse_groups g d n (acc ++ ws) s1).
Proof.
  assert (Hstep : forall n acc s, exists ws s1, parse_pinyin_word g d s = (inr ws, s1) /\
     parse_groups g d (S n) acc s = parse_groups g d n (acc ++ ws) s1).
  { intros n acc s. destruct (parse_pinyin_word_ok g d s) as (ws & s1 & Hrun).
    exists ws, s1. split; [exact Hrun |].
    cbn [parse_groups]. erewrite bind_step; [reflexivity |].
    apply catch_ok. erewrite bind_step by exact Hrun. reflexivity. }
  split; [| exact Hstep].
  induction n as [|n IH]; intros acc s.
  - exists [], s. rewrite app_nil_r. reflexivity.
  - destruct (Hstep n acc s) as (ws & s1 & _ & ->).
    destruct (IH (acc ++ ws) s1) as (ws' & s' & ->).
    exists (ws ++ ws'), s'. rewrite app_assoc. reflexivity.
Qed.

(** ** Files too short for the fixed header *)

Lemma unpack_I_short (b : list Z) s :
  (length b < 4)%nat -> unpack_I b s = (inl StructError, s).
Proof.
  intros H. destruct b as [|b0 [|b1 [|b2 [|b3 b']]]]; try reflexivity.
  simpl in H. lia.
Qed.

Lemma read_bind {B} n (k : list Z -> M B) s :
  bind (read n) k s = k (take n (rest s)) (set_pos s (pos s + length (take n (rest s)))).
Proof. reflexivity. Qed.

Lemma parse_scel_short g c :
  Z.of_nat (length c) < 0x1544 -> fst (parse_scel g c) = inl StructError.
Proof.
  intros Hc. unfold parse_scel, parse_scel_m.
  step. rewrite read_bind.
  destruct (decide (length (take 4 (rest (set_pos (open_file c) 0x120))) < 4)%nat) as [Hs|Hs].
  { unfold bind at 1. rewrite unpack_I_short by exact Hs. reflexivity. }
  remember (take 4 (rest (set_pos (open_file c) 0x120))) as b eqn:Eb.
  destruct b as [|b0 [|b1 [|b2 [|b3 [|b4 b']]]]]; simpl in Hs; try lia.
  2:{ apply (f_equal length) in Eb. rewrite length_take in Eb.
       pose proof (Nat.le_min_l 4 (length (rest (set_pos (open_file c) 0x120)))).
       cbn [length] in Eb. lia. }
  step. step. rewrite read_bind.
  unfold bind at 1. rewrite unpack_I_short; [reflexivity |].
  rewrite length_take. unfold rest. cbn [pos data set_pos open_file].
  rewrite length_drop.
  pose proof (Nat.le_min_r 4 (length c - 0x1540)).
  assert (Hk : Z.of_nat 0x1540 = 5440) by reflexivity. lia.
Qed.

(** [parse_scel] on a file shorter than 0x1544 bytes (the fixed header and
    the 4-byte phonetic-table size) raises [struct.error]: one of the two
    [struct.unpack('<I', ...)] calls gets fewer than 4 bytes. *)
Theorem parse_scel_short_file (g : list Z -> pystr) (c : list Z) :
  Z.of_nat (length c) < 0x1544 -> fst (parse_scel g c) = inl StructError.
Proof. apply parse_scel_short. Qed.

Lemma parse_scel_short_file_witness :
  Z.of_nat (length (repeat 0 0x1540)) < 0x1544 /\
  fst (parse_scel (fun _ => []) (repeat 0 0x1540)) = inl StructError.
Proof.
  assert (H : Z.of_nat (length (repeat 0 0x1540)) < 0x1544)
    by (rewrite repeat_length; reflexivity).
  split; [exact H | apply (parse_scel_short_file (fun _ => []) _ H)].
Defined.

(** ** The phonetic table *)

Lemma read_py_table_prefix g :
  forall tab k d s tail, Forall entry_wf tab ->
  rest s = concat (map enc_entry tab) ++ tail ->
  exists s', read_py_table g (length tab + k) d s =
    read_py_table g k (fold_left (fun (d : gmap Z pystr) (e : Z * list Z) =>
                                    <[e.1 := table_spelling g e.2]> d) tab d) s' /\
    rest s' = tail.
Proof.
  induction tab as [|[i sp] tab IH]; intros k d s tail Hwf E.
  - exists s. split; [reflexivity | exact E].
  - inversion Hwf as [|? ? [Hi Hsp] Hwf']; subst. simpl in Hi, Hsp.
    cbn [map concat] in E. unfold enc_entry at 1 in E. simpl fst in E. simpl snd in E.
    rewrite <- !app_assoc in E.
    cbn [length Nat.add read_py_table].
    destruct (read_app 2 s _ _ E eq_refl) as [Hr Hrest].
    erewrite bind_step by exact Hr.
    unfold le16 at 1. cbn [unpack_H]. erewrite bind_step by reflexivity.
    destruct (read_app 2 _ _ _ Hrest eq_refl) as [Hr' Hrest'].
    erewrite bind_step by exact Hr'.
    unfold le16 at 1. cbn [unpack_H]. erewrite bind_step by reflexivity.
    rewrite !le16_val by lia. rewrite Nat2Z.id.
    destruct (read_app (length sp) _ sp _ Hrest' eq_refl) as [Hr'' Hrest''].
    erewrite bind_step by exact Hr''.
    apply IH; [exact Hwf' | exact Hrest''].
Qed.

Lemma read_py_table_short g m d s :
  (length (rest s) < 4)%nat -> fst (read_py_table g (S m) d s) = inl StructError.
Proof.
  intros H. cbn [read_py_table]. rewrite read_bind.
  destruct (rest s) as [|x0 [|x1 [|x2 [|x3 r]]]] eqn:E; simpl in H; try lia;
    cbn [take length]; try reflexivity.
  - step. rewrite read_bind, rest_after, E. reflexivity.
  - step. rewrite read_bind, rest_after, E. reflexivity.
Qed.

Lemma table_fold_keep g j :
  forall tab (d : gmap Z pystr), Forall (fun e : Z * list Z => e.1 <> j) tab ->
  fold_left (fun (d : gmap Z pystr) (e : Z * list Z) =>
               <[e.1 := table_spelling g e.2]> d) tab d !! j = d !! j.
Proof.
  induction tab as [|e tab IH]; intros d H; [reflexivity |].
  inversion H; subst. simpl. rewrite IH by assumption.
  apply lookup_insert_ne. congruence.
Qed.

(** The dictionary [py_dict] that [parse_scel] builds from a phonetic table
    of well-formed entries: the loop consumes exactly the entries' bytes; an
    index that no entry carries keeps its previous value; for an index that
    several entries carry, the last of them wins (its spelling, decoded, with
    nulls removed and stripped). *)
Theorem py_table_last_write_wins (g : list Z -> pystr) (tab : list (Z * list Z))
    (d : gmap Z pystr) (s : St) (tail : list Z) :
  Forall entry_wf tab -> rest s = concat (map enc_entry tab) ++ tail ->
  exists d' s', read_py_table g (length tab) d s = (inr d', s') /\ rest s' = tail /\
    (forall j, Forall (fun e : Z * list Z => e.1 <> j) tab -> d' !! j = d !! j) /\
    (forall tab1 i b tab2, tab = tab1 ++ (i, b) :: tab2 ->
       Forall (fun e : Z * list Z => e.1 <> i) tab2 ->
       d' !! i = Some (table_spelling g b)).
Proof.
  intros Hwf E.
  destruct (read_py_table_prefix g tab 0 d s tail Hwf E) as (s' & Hrun & Hrt).
  rewrite Nat.add_0_r in Hrun. rewrite Hrun.
  eexists _, s'. split; [reflexivity |]. split; [exact Hrt |]. split.
  - intros j Hj. apply table_fold_keep. exact Hj.
  - intros tab1 i b tab2 -> Hi. rewrite fold_left_app. simpl.
    rewrite table_fold_keep by exact Hi. apply lookup_insert_eq.
Qed.

Lemma py_table_last_write_wins_witness :
  exists d' s',
    read_py_table (fun _ => []) (length [(0, [97; 0]); (0, [98; 0])]) ∅
      (open_file (concat (map enc_entry [(0, [97; 0]); (0, [98; 0])]) ++ [])) = (inr d', s') /\
    rest s' = [] /\
    (forall j, Forall (fun e : Z * list Z => e.1 <> j) [(0, [97; 0]); (0, [98; 0])] ->
       d' !! j = (∅ : gmap Z pystr) !! j) /\
    (forall tab1 i b tab2, [(0, [97; 0]); (0, [98; 0])] = tab1 ++ (i, b) :: tab2 ->
       Forall (fun e : Z * list Z => e.1 <> i) tab2 ->
       d' !! i = Some (table_spelling (fun _ => []) b)).
Proof.
  apply py_table_last_write_wins.
  - repeat constructor; simpl; lia.
  - reflexivity.
Defined.

(** A phonetic table announcing more entries than the file holds: after
    the complete entries, fewer than 4 bytes are left and [parse_scel]
    raises [struct.error] while reading the next entry's header. *)
Theorem parse_scel_truncated_table (g : list Z -> pystr) (pre : list Z)
    (tab : list (Z * list Z)) (m : nat) (tail : list Z) :
  length pre = 0x1540%nat ->
  Z.of_nat (length tab + S m) < 4294967296 ->
  Forall entry_wf tab -> (length tail < 4)%nat ->
  fst (parse_scel g (pre ++ le32 (Z.of_nat (length tab + S m)) ++
                     concat (map enc_entry tab) ++ tail)) = inl StructError.
Proof.
  intros Hpre Hn Hwf Ht.
  set (Y := le32 (Z.of_nat (length tab + S m)) ++ concat (map enc_entry tab) ++ tail).
  assert (Hh : (0x124 <= length pre)%nat) by (rewrite Hpre; apply Nat.leb_le; reflexivity).
  unfold parse_scel, parse_scel_m.
  step. rewrite read_bind.
  assert (Hb : take 4 (rest (set_pos (open_file (pre ++ Y)) 0x120)) =
               take 4 (drop 0x120 pre)).
  { unfold rest. cbn [pos data set_pos open_file].
    rewrite drop_app_le by lia. apply take_app_le. rewrite length_drop. lia. }
  rewrite Hb.
  assert (Hl : length (take 4 (drop 0x120 pre)) = 4%nat)
    by (rewrite length_take, length_drop; lia).
  destruct (take 4 (drop 0x120 pre)) as [|b0 [|b1 [|b2 [|b3 [|b4 r]]]]];
    simpl in Hl; try lia.
  step. step. rewrite read_bind.
  match goal with |- context [rest ?st] =>
    assert (E1 : rest st = Y)
      by (unfold rest; cbn [pos data set_pos open_file];
          apply drop_app_length'; symmetry; exact Hpre)
  end.
  rewrite E1. unfold Y at 1. unfold le32 at 1.
  cbn [take app]. step.
  rewrite le32_val by lia. rewrite Nat2Z.id.
  set (s1 := set_pos _ _).
  assert (E2 : rest s1 = concat (map enc_entry tab) ++ tail).
  { unfold s1. rewrite rest_after, E1. reflexivity. }
  destruct (read_py_table_prefix g tab (S m) ∅ s1 tail Hwf E2) as (s2 & Hrun & Hrt).
  unfold bind at 1. rewrite Hrun.
  rewrite (surjective_pairing (read_py_table _ _ _ _)).
  rewrite read_py_table_short by (rewrite Hrt; exact Ht). reflexivity.
Qed.

Lemma parse_scel_truncated_table_witness :
  fst (parse_scel (fun _ => []) (repeat 0 0x1540 ++ le32 (Z.of_nat (length [(0, [97; 0])] + S 0)) ++
                     concat (map enc_entry [(0, [97; 0])]) ++ [0; 0])) = inl StructError.
Proof.
  apply parse_scel_truncated_table.
  - apply repeat_length.
  - simpl. lia.
  - repeat constructor; simpl; lia.
  - simpl. lia.
Defined.

(** ** Spellings stored in the pinyin lists *)

Lemma remove_nulls_no_null t : ~ In 0 (remove_nulls t).
Proof.
  unfold remove_nulls. intros H. apply list_elem_of_In, list_elem_of_filter in H as [H _].
  rewrite Z.eqb_refl in H. exact H.
Qed.

Lemma strip_stripped t : ~ In 0 t -> stripped_text (strip t).
Proof.
  intros H. split; [| split].
  - intros H'. apply H, strip_In, H'.
  - intros c r. apply strip_first.
  - intros c r. apply strip_last.
Qed.

Lemma table_spelling_stripped g b : stripped_text (table_spelling g b).
Proof. apply strip_stripped, remove_nulls_no_null. Qed.

Lemma py_isspace_letter c : 97 <= c <= 122 -> py_isspace c = false.
Proof.
  intros Hc. unfold py_isspace.
  rewrite (proj2 (Z.leb_gt c 0x0D)), (proj2 (Z.leb_gt c 0x20)), (proj2 (Z.leb_gt 0x2000 c))
    by lia.
  rewrite !(proj2 (Z.eqb_neq c _)) by lia.
  rewrite !andb_false_r. reflexivity.
Qed.

Lemma spelling_stripped d idx :
  map_Forall (fun _ => stripped_text) d -> stripped_text (spelling d idx).
Proof.
  intros Hd. unfold spelling. destruct (d !! idx) as [v|] eqn:E.
  - exact (Hd idx v E).
  - assert (H : 0 <= idx mod 26 < 26) by (apply Z.mod_pos_bound; lia).
    split; [| split].
    + simpl. lia.
    + intros c r [=<- _]. apply py_isspace_letter. lia.
    + intros c r Hr. destruct r as [|x [|y r]]; try discriminate.
      injection Hr as <-. apply py_isspace_letter. lia.
Qed.

Lemma read_py_table_clean g :
  forall n d s, map_Forall (fun _ => stripped_text) d ->
  heap (snd (read_py_table g n d s)) = heap s /\
  match fst (read_py_table g n d s) with
  | inr d' => map_Forall (fun _ => stripped_text) d'
  | inl _ => True
  end.
Proof.
  induction n as [|n IH]; intros d s Hd; [split; [reflexivity | exact Hd] |].
  cbn [read_py_table]. rewrite read_bind.
  destruct (take 2 (rest s)) as [|x0 [|x1 [|x2 r]]]; try (split; reflexivity).
  step. rewrite read_bind.
  match goal with |- context [take 2 (rest ?st)] =>
    destruct (take 2 (rest st)) as [|y0 [|y1 [|y2 r']]]; try (split; reflexivity)
  end.
  step. rewrite read_bind.
  match goal with |- context [read_py_table g n (<[?i := ?v]> d) ?st] =>
    destruct (IH (<[i := v]> d) st) as [Hh Hv]
  end.
  { apply map_Forall_insert_2; [apply table_spelling_stripped | exact Hd]. }
  split; [exact Hh | exact Hv].
Qed.

Lemma heap_clean_set_pos s p : heap_clean (set_pos s p) <-> heap_clean s.
Proof. reflexivity. Qed.

Lemma read_py_indices_clean d wp :
  map_Forall (fun _ => stripped_text) d ->
  forall py s, heap_clean s -> heap_clean (snd (read_py_indices d wp py s)).
Proof.
  intros Hd. fix IH 1. intros py s Hs.
  destruct py as [|b0 [|b1 py]]; [exact Hs | exact Hs |].
  cbn [read_py_indices]. unfold bind at 1, append.
  apply IH. unfold heap_clean. cbn [heap set_heap].
  apply map_Forall_insert_2; [| exact Hs].
  apply Forall_app. split.
  - destruct (heap s !! wp) as [v|] eqn:E; [exact (Hs wp v E) | constructor].
  - constructor; [| constructor]. apply (spelling_stripped d), Hd.
Qed.

Lemma copy_clean wp s : heap_clean s -> heap_clean (snd (copy wp s)).
Proof.
  intros Hs. unfold copy, alloc, heap_clean. cbn [snd heap set_heap].
  apply map_Forall_insert_2; [| exact Hs].
  destruct (heap s !! wp) as [v|] eqn:E; [exact (Hs wp v E) | constructor].
Qed.

Lemma read_homophones_clean g wp :
  forall n ws s, heap_clean s -> heap_clean (snd (read_homophones g n wp ws s)).
Proof.
  induction n as [|n IH]; intros ws s Hs; [exact Hs |].
  cbn [read_homophones]. rewrite read_bind.
  destruct (_ <? _)%nat; [exact Hs |].
  rewrite read_bind. rewrite read_bind. unfold bind at 1.
  apply IH, copy_clean. exact Hs.
Qed.

Lemma bind_pres {A B} (P : St -> Prop) (m : M A) (k : A -> M B) s :
  P s -> (forall s, P s -> P (snd (m s))) -> (forall a s, P s -> P (snd (k a s))) ->
  P (snd (bind m k s)).
Proof.
  intros Hs Hm Hk. unfold bind. specialize (Hm s Hs).
  destruct (m s) as [[e|a] s']; [exact Hm | apply Hk, Hm].
Qed.

Lemma read_clean n s : heap_clean s -> heap_clean (snd (read n s)).
Proof. exact id. Qed.

Lemma alloc_clean s : heap_clean s -> heap_clean (snd (alloc [] s)).
Proof.
  intros Hs. unfold alloc, heap_clean. cbn [snd heap set_heap].
  apply map_Forall_insert_2; [constructor | exact Hs].
Qed.

Lemma parse_pinyin_word_clean g d s :
  map_Forall (fun _ => stripped_text) d -> heap_clean s ->
  heap_clean (snd (parse_pinyin_word g d s)).
Proof.
  intros Hd Hs. unfold parse_pinyin_word.
  apply bind_pres; [exact Hs | apply read_clean |]. intros header s1 H1.
  destruct (_ <? _)%nat; [exact H1 |].
  apply bind_pres; [exact H1 | apply read_clean |]. intros py s2 H2.
  apply bind_pres; [exact H2 | apply alloc_clean |]. intros wp s3 H3.
  apply bind_pres; [exact H3 | apply read_py_indices_clean, Hd |]. intros _ s4 H4.
  apply read_homophones_clean, H4.
Qed.

Lemma parse_groups_clean g d :
  map_Forall (fun _ => stripped_text) d ->
  forall n acc s, heap_clean s -> heap_clean (snd (parse_groups g d n acc s)).
Proof.
  intros Hd. induction n as [|n IH]; intros acc s Hs; [exact Hs |].
  cbn [parse_groups]. apply bind_pres; [exact Hs | | intros; apply IH; assumption].
  clear s Hs. intros s Hs. unfold catch.
  assert (H1 : heap_clean (snd ((let! words := parse_pinyin_word g d in
                                   ret (acc ++ words)) s))).
  { apply bind_pres; [exact Hs | intros; apply parse_pinyin_word_clean; assumption |].
    intros a s' H'. exact H'. }
  destruct ((let! words := parse_pinyin_word g d in ret (acc ++ words)) s) as [[e|a] s'].
  - apply bind_pres; [exact H1 | intros s'' H''; exact H'' |]. intros p s'' H''.
    destruct (Nat.odd p); [| exact H''].
    apply bind_pres; [exact H'' | apply read_clean | intros _ s3 H3; exact H3].
  - exact H1.
Qed.

(** After [parse_scel], every spelling held by any pinyin list (the lists
    the entries refer to included) has no null code point and no leading or
    trailing whitespace: table spellings are cleaned with
    [.replace('\x00', '')] and [.strip()], and fallback spellings are single
    letters a..z.  This holds whether or not the parse raised. *)
Theorem parse_scel_spellings_clean (g : list Z -> pystr) (c : list Z) :
  map_Forall (fun _ l => Forall stripped_text l) (heap (snd (parse_scel g c))).
Proof.
  unfold parse_scel, parse_scel_m.
  assert (H0 : heap_clean (open_file c)) by apply map_Forall_empty.
  apply bind_pres; [exact H0 | intros s Hs; exact Hs |]. intros _ s1 H1.
  apply bind_pres; [exact H1 | apply read_clean |]. intros b s2 H2.
  apply bind_pres; [exact H2 | intros s Hs; unfold unpack_I; destruct b as [|? [|? [|? [|? [|]]]]]; exact Hs |].
  intros dl s3 H3.
  apply bind_pres; [exact H3 | intros s Hs; exact Hs |]. intros _ s4 H4.
  apply bind_pres; [exact H4 | apply read_clean |]. intros b' s5 H5.
  apply bind_pres; [exact H5 | intros s Hs; unfold unpack_I; destruct b' as [|? [|? [|? [|? [|]]]]]; exact Hs |].
  intros pl s6 H6.
  unfold bind at 1.
  destruct (read_py_table_clean g (Z.to_nat pl) ∅ s6 (map_Forall_empty _)) as [Hh Hv].
  destruct (read_py_table g (Z.to_nat pl) ∅ s6) as [[e|d] s7]; simpl in Hh;
    cbv beta iota; cbn [snd].
  - unfold heap_clean in *. rewrite Hh. exact H6.
  - apply parse_groups_clean; [exact Hv |]. unfold heap_clean in *. rewrite Hh. exact H6.
Qed.

(** ** The entries [parse_scel] returns *)

Lemma bind_post {A B} (Q : A -> Prop) (P : B -> Prop) (m : M A) (k : A -> M B) s :
  (forall s, holds_on_success Q (m s)) ->
  (forall a s, Q a -> holds_on_success P (k a s)) ->
  holds_on_success P (bind m k s).
Proof.
  intros Hm Hk. specialize (Hm s). unfold bind. unfold holds_on_success in Hm.
  destruct (m s) as [[e|a] s']; [exact I | apply Hk, Hm].
Qed.

Lemma post_true {A} (m : M A) s : holds_on_success (fun _ => True) (m s).
Proof. unfold holds_on_success. destruct (fst (m s)); exact I. Qed.

Lemma read_homophones_entries g wp (P : WordLibrary -> Prop) :
  (forall b p, P {| word := remove_nulls (decode_word g b); pinyin := p; rank := 1 |}) ->
  forall n ws s, Forall P ws -> holds_on_success (Forall P) (read_homophones g n wp ws s).
Proof.
  intros HP. induction n as [|n IH]; intros ws s Hws; [exact Hws |].
  cbn [read_homophones]. rewrite read_bind.
  destruct (_ <? _)%nat; [exact Hws |].
  rewrite !read_bind. unfold bind at 1.
  apply IH. apply Forall_app. split; [exact Hws |]. constructor; [apply HP | constructor].
Qed.

Lemma parse_pinyin_word_entries g d (P : WordLibrary -> Prop) :
  (forall b p, P {| word := remove_nulls (decode_word g b); pinyin := p; rank := 1 |}) ->
  forall s, holds_on_success (Forall P) (parse_pinyin_word g d s).
Proof.
  intros HP s. unfold parse_pinyin_word. rewrite read_bind.
  destruct (_ <? _)%nat; [constructor |].
  rewrite read_bind.
  apply (bind_post (fun _ => True)); [intros; apply post_true |]. intros wp s1 _.
  apply (bind_post (fun _ => True)); [intros; apply post_true |]. intros _ s2 _.
  apply read_homophones_entries; [exact HP | constructor].
Qed.

Lemma parse_groups_entries g d (P : WordLibrary -> Prop) :
  (forall b p, P {| word := remove_nulls (decode_word g b); pinyin := p; rank := 1 |}) ->
  forall n acc s, Forall P acc -> holds_on_success (Forall P) (parse_groups g d n acc s).
Proof.
  intros HP. induction n as [|n IH]; intros acc s Hacc; [exact Hacc |].
  destruct (parse_pinyin_word_ok g d s) as (ws & s1 & Hr).
  pose proof (parse_pinyin_word_entries g d P HP s) as Hws.
  unfold holds_on_success in Hws. rewrite Hr in Hws.
  cbn [parse_groups]. erewrite bind_step.
  2:{ apply catch_ok. erewrite bind_step by exact Hr. reflexivity. }
  apply IH. apply Forall_app. split; assumption.
Qed.

Lemma parse_scel_entries g c (P : WordLibrary -> Prop) :
  (forall b p, P {| word := remove_nulls (decode_word g b); pinyin := p; rank := 1 |}) ->
  holds_on_success (Forall P) (parse_scel g c).
Proof.
  intros HP. unfold parse_scel, parse_scel_m.
  repeat (apply (bind_post (fun _ => True)); [intros; apply post_true | intros ? ? _]).
  apply parse_groups_entries; [exact HP | constructor].
Qed.

(** Every entry [parse_scel] returns has rank 1 and a word with no null
    code point ([.replace('\x00', '')] is applied to each decoded word). *)
Theorem parse_scel_entries_rank_one (g : list Z -> pystr) (c : list Z) :
  match fst (parse_scel g c) with
  | inr ws => Forall (fun e => rank e = 1 /\ ~ In 0 (word e)) ws
  | inl _ => True
  end.
Proof.
  change (holds_on_success (Forall (fun e => rank e = 1 /\ ~ In 0 (word e)))
            (parse_scel g c)).
  apply parse_scel_entries.
  intros b p. split; [reflexivity | apply remove_nulls_no_null].
Qed.

(** ** How many entries a file can give *)












(** ** The text file written by [save_to_txt] *)

Lemma split_lines_aux_line w t cur :
  ~ In 10 w -> split_lines_aux (w ++ 10 :: t) cur = (rev cur ++ w) :: split_lines_aux t [].
Proof.
  revert cur. induction w as [|c w IH]; intros cur Hw.
  - simpl. rewrite app_nil_r. reflexivity.
  - simpl. destruct (Z.eqb_spec c 10) as [->|Hc]; [simpl in Hw; tauto |].
    rewrite IH by (simpl in Hw; tauto). simpl. rewrite <- app_assoc. reflexivity.
Qed.

(** [save_to_txt] writes one line per entry, in order: when no word
    contains a line feed, splitting the written text at its line feeds
    gives back exactly the entries' words. *)
Theorem save_to_txt_lines (word_libraries : list WordLibrary) :
  Forall (fun wl => ~ In 10 (word wl)) word_libraries ->
  split_lines (save_to_txt_text word_libraries) = map word word_libraries.
Proof.
  induction 1 as [|wl wls Hw _ IH]; [reflexivity |].
  unfold split_lines, save_to_txt_text in *. cbn [map concat].
  rewrite <- app_assoc. simpl app. rewrite split_lines_aux_line by exact Hw.
  rewrite IH. reflexivity.
Qed.

Lemma save_to_txt_lines_witness :
  split_lines (save_to_txt_text
    [{| word := [0x4F60; 0x597D]; pinyin := 0; rank := 1 |};
     {| word := []; pinyin := 1; rank := 1 |}]) = [[0x4F60; 0x597D]; []].
Proof.
  apply (save_to_txt_lines
    [{| word := [0x4F60; 0x597D]; pinyin := 0; rank := 1 |};
     {| word := []; pinyin := 1; rank := 1 |}]).
  repeat constructor; simpl; lia.
Defined.

Lemma utf8_encode_ok t :
  Forall (fun c => ~ (0xD800 <= c < 0xE000)) t -> exists b, utf8_encode t = Some b.
Proof.
  induction 1 as [|c t Hc _ [b IH]]; [exists []; reflexivity |].
  simpl. rewrite IH.
  assert (H : exists bc, utf8_encode_char c = Some bc).
  { unfold utf8_encode_char.
    destruct (c <? 0x80); [eauto |]. destruct (c <? 0x800); [eauto |].
    destruct (Z.leb_spec 0xD800 c), (Z.ltb_spec c 0xE000); simpl; [lia | | |];
      destruct (c <? 0x10000); eauto. }
  destruct H as [bc ->]. eauto.
Qed.

Lemma decode_strict_no_surrogate :
  forall b t, decode_utf16le Strict b = Some t -> Forall (fun c => ~ (0xD800 <= c < 0xE000)) t.
Proof.
  fix IH 1. intros b t H.
  destruct b as [|b0 [|b1 rest]]; simpl in H.
  - injection H as <-. constructor.
  - discriminate.
  - set (u := b0 + Z.shiftl b1 8) in H.
    destruct ((u <? 0xD800) || (0xE000 <=? u)) eqn:Eu.
    + destruct (decode_utf16le Strict rest) as [t'|] eqn:Er; [| discriminate].
      injection H as <-. constructor; [| exact (IH rest t' Er)].
      apply orb_true_iff in Eu as [Eu|Eu]; [apply Z.ltb_lt in Eu | apply Z.leb_le in Eu]; lia.
    + destruct (u <? 0xDC00) eqn:Eu2; [| discriminate].
      destruct rest as [|c0 [|c1 rest']]; try discriminate.
      destruct ((0xDC00 <=? c0 + Z.shiftl c1 8) && (c0 + Z.shiftl c1 8 <? 0xE000)) eqn:Ec;
        [| discriminate].
      destruct (decode_utf16le Strict rest') as [t'|] eqn:Er; [| discriminate].
      injection H as <-. constructor; [| exact (IH rest' t' Er)].
      apply orb_false_iff in Eu as [Eu Eu']. apply Z.ltb_ge in Eu.
      apply andb_true_iff in Ec as [Ec _]. apply Z.leb_le in Ec.
      assert (0 <= Z.shiftl (u - 0xD800) 10)
        by (rewrite Z.shiftl_mul_pow2 by lia; lia).
      lia.
Qed.

Lemma remove_nulls_Forall (P : Z -> Prop) t : Forall P t -> Forall P (remove_nulls t).
Proof.
  intros H. apply Forall_forall. intros x Hx. unfold remove_nulls in Hx.
  apply list_elem_of_filter in Hx as [_ Hx]. rewrite Forall_forall in H. apply H, Hx.
Qed.

(** When Python's GBK decoder returns no surrogate code point (it never
    does), every run of the script in which [parse_scel] succeeds and the
    output file can be opened ends normally and writes the whole result:
    [save_to_txt] meets no encoding error, the file holds the UTF-8 bytes of
    one line per entry, and it is written to [argv[2]], or to "output.txt"
    when no second argument is given. *)
Theorem main_writes_all_entries (g : list Z -> pystr) (argv0 input_path : pystr)
    (argv' : list pystr) (env : Env) (c : list Z) (info : ScelInfo)
    (ws : list WordLibrary) :
  (forall b, Forall (fun c => ~ (0xD800 <= c < 0xE000)) (g b)) ->
  fs_exists env input_path = true -> fs_read env input_path = Some c ->
  read_scel_info g c = inr info -> fst (parse_scel g c) = inr ws ->
  fs_writable env (match argv' with o :: _ => o | [] => output_txt end) = true ->
  exists bytes,
    main g (argv0 :: input_path :: argv') env =
      {| exit_code := 0;
         written := Some (match argv' with o :: _ => o | [] => output_txt end, Some bytes) |} /\
    utf8_encode (save_to_txt_text ws) = Some bytes.
Proof.
  intros Hg Hex Hrd Hinfo Hparse Hw.
  set (nosur := fun c : Z => ~ (0xD800 <= c < 0xE000)).
  pose proof (parse_scel_entries g c (fun wl => Forall nosur (word wl))) as Hall.
  unfold holds_on_success in Hall. rewrite Hparse in Hall.
  specialize (Hall ltac:(intros b p; apply remove_nulls_Forall; unfold decode_word;
    destruct (decode_utf16le Strict b) as [t|] eqn:E;
    [exact (decode_strict_no_surrogate b t E) | apply Hg])).
  assert (Ht : Forall nosur (save_to_txt_text ws)).
  { clear - Hall. unfold save_to_txt_text. induction Hall as [|wl ws' Hwl _ IH]; [constructor |].
    cbn [map concat]. apply Forall_app. split; [| exact IH].
    apply Forall_app. split; [exact Hwl | constructor; [unfold nosur; lia | constructor]]. }
  destruct (utf8_encode_ok _ Ht) as [bytes Hb].
  exists bytes. split; [| exact Hb].
  unfold main. cbv zeta. rewrite Hex. cbn [negb]. rewrite Hrd, Hinfo, Hparse, Hw.
  cbn [negb]. unfold save_to_txt. rewrite Hb. reflexivity.
Qed.

Lemma main_writes_all_entries_witness :
  exists bytes,
    main (fun _ => []) [[]; [120]]
      {| fs_exists := fun _ => true; fs_read := fun _ => Some (repeat 0 0x1548);
         fs_writable := fun _ => true |} =
      {| exit_code := 0; written := Some (output_txt, Some bytes) |} /\
    utf8_encode (save_to_txt_text []) = Some bytes.
Proof.
  eapply (main_writes_all_entries (fun _ => []) [] [120] []
    {| fs_exists := fun _ => true; fs_read := fun _ => Some (repeat 0 0x1548);
       fs_writable := fun _ => true |} (repeat 0 0x1548)
    {| CountWord := [48]; Name := []; Type_ := []; Info := []; Sample := [] |}).
  - intros b. constructor.
  - reflexivity.
  - reflexivity.
  - vm_compute. reflexivity.
  - vm_compute. reflexivity.
  - reflexivity.
Defined.

(** ** The command line *)

(** The exit status of the script: 1 when no input path is given or the
    input path does not exist ([sys.exit(1)]); otherwise 0, whatever happens
    while reading, parsing or writing (the [except] clause prints the error
    and the script ends normally). *)
Theorem main_exit_code (g : list Z -> pystr) (argv : list pystr) (env : Env) :
  exit_code (main g argv env) =
  match argv with
  | _ :: input_path :: _ => if fs_exists env input_path then 0 else 1
  | _ => 1
  end.
Proof.
  destruct argv as [|a [|inp r]]; try reflexivity.
  unfold main. cbv beta iota zeta.
  destruct (fs_exists env inp); cbn [negb]; [| reflexivity].
  destruct (fs_read env inp) as [c|]; [| reflexivity].
  destruct (read_scel_info g c); [reflexivity |].
  destruct (fst (parse_scel g c)); [reflexivity |].
  destruct (fs_writable env _); reflexivity.
Qed.

(** On an existing input file shorter than 0x1544 bytes the script writes
    no output file and still exits with status 0: either [read_scel_info]
    or [parse_scel] raises [struct.error], which the [except] clause
    catches. *)
Theorem main_short_input (g : list Z -> pystr) (argv0 input_path : pystr)
    (argv' : list pystr) (env : Env) (c : list Z) :
  fs_exists env input_path = true -> fs_read env input_path = Some c ->
  Z.of_nat (length c) < 0x1544 ->
  main g (argv0 :: input_path :: argv') env = {| exit_code := 0; written := None |}.
Proof.
  intros Hex Hrd Hc. unfold main. cbv beta iota zeta.
  rewrite Hex. cbn [negb]. rewrite Hrd.
  destruct (read_scel_info g c); [reflexivity |].
  rewrite (parse_scel_short g c Hc). reflexivity.
Qed.

Lemma main_short_input_witness :
  main (fun _ => []) [[]; [120]; [121]]
    {| fs_exists := fun _ => true; fs_read := fun _ => Some (repeat 0 0x200);
       fs_writable := fun _ => true |} = {| exit_code := 0; written := None |}.
Proof.
  apply (main_short_input (fun _ => []) [] [120] [[121]] _ (repeat 0 0x200)).
  - reflexivity.
  - reflexivity.
  - rewrite repeat_length. reflexivity.
Defined.

(** ** What [read_scel_info] reads *)

Lemma take_drop_app (c x : list Z) k n :
  (k + n <= length c)%nat -> take n (drop k (c ++ x)) = take n (drop k c).
Proof.
  intros H. rewrite drop_app_le by lia. apply take_app_le. rewrite length_drop. lia.
Qed.

Lemma field_text_app g sp len c x :
  (sp + len <= length c)%nat -> field_text g sp len (c ++ x) = field_text g sp len c.
Proof. intros H. unfold field_text. rewrite take_drop_app by exact H. reflexivity. Qed.

(** [read_scel_info] only looks at the first 0x1140 bytes of the file (the
    last field it reads, the sample, ends at 0xD40 + 1024 = 0x1140): files
    that agree on those bytes give the same result. *)
Theorem read_scel_info_header_only (g : list Z -> pystr) (c x y : list Z) :
  length c = 0x1140%nat -> read_scel_info g (c ++ x) = read_scel_info g (c ++ y).
Proof.
  intros Hc. rewrite !read_scel_info_eq.
  rewrite !(take_drop_app c) by lia.
  rewrite !(field_text_app g _ _ c) by lia.
  reflexivity.
Qed.

Lemma read_scel_info_header_only_witness :
  read_scel_info (fun _ => []) (repeat 0 0x1140 ++ []) =
  read_scel_info (fun _ => []) (repeat 0 0x1140 ++ [1]).
Proof. apply read_scel_info_header_only. apply repeat_length. Defined.

(** ** [parse_scel] ignores the metadata fields *)

Lemma seek_bind {B} p (k : unit -> M B) s : bind (seek p) k s = k tt (set_pos s p).
Proof. reflexivity. Qed.

Lemma ret_bind {A B} (a : A) (k : A -> M B) s : bind (ret a) k s = k a s.
Proof. reflexivity. Qed.

Lemma bind_sim {A B} (m : M A) (k : A -> M B) :
  sim m -> (forall a, sim (k a)) -> sim (bind m k).
Proof.
  intros Hm Hk s1 s2 H. destruct (Hm s1 s2 H) as [E R]. unfold bind.
  destruct (m s1) as [r1 t1], (m s2) as [r2 t2]. simpl in E, R. subst r2.
  destruct r1 as [e|a]; [split; [reflexivity | exact R] | apply Hk, R].
Qed.

Lemma ret_sim {A} (a : A) : sim (ret a).
Proof. intros s1 s2 H. split; [reflexivity | exact H]. Qed.

Lemma raise_sim {A} e : sim (@raise A e).
Proof. intros s1 s2 H. split; [reflexivity | exact H]. Qed.

Lemma read_sim n : sim (read n).
Proof.
  intros s1 s2 (Hp & Hr & Hh & Hn). rewrite !read_eq. simpl fst. simpl snd.
  rewrite Hr. split; [reflexivity |].
  unfold same_view. rewrite !rest_after, Hr. cbn [pos heap next set_pos].
  repeat split; congruence.
Qed.

Lemma tell_sim : sim tell.
Proof. intros s1 s2 H. split; [simpl; f_equal; apply H | exact H]. Qed.

Lemma unpack_H_sim b : sim (unpack_H b).
Proof. unfold unpack_H. destruct b as [|? [|? [|]]]; auto using ret_sim, raise_sim. Qed.

Lemma unpack_I_sim b : sim (unpack_I b).
Proof.
  unfold unpack_I. destruct b as [|? [|? [|? [|? [|]]]]]; auto using ret_sim, raise_sim.
Qed.

Lemma alloc_sim v : sim (alloc v).
Proof.
  intros s1 s2 (Hp & Hr & Hh & Hn). unfold alloc, same_view, rest in *. simpl.
  rewrite Hn, Hh. split; [reflexivity |]. repeat split; simpl; congruence.
Qed.

Lemma append_sim l x : sim (append l x).
Proof.
  intros s1 s2 (Hp & Hr & Hh & Hn). unfold append, same_view, rest in *. simpl.
  rewrite Hh. split; [reflexivity |]. repeat split; simpl; congruence.
Qed.

Lemma copy_sim l : sim (copy l).
Proof.
  intros s1 s2 H. unfold copy. destruct H as (Hp & Hr & Hh & Hn). rewrite Hh.
  apply alloc_sim. repeat split; assumption.
Qed.

Lemma catch_sim {A} (m : M A) h : sim m -> (forall e, sim (h e)) -> sim (catch m h).
Proof.
  intros Hm Hh s1 s2 H. destruct (Hm s1 s2 H) as [E R]. unfold catch.
  destruct (m s1) as [r1 t1], (m s2) as [r2 t2]. simpl in E, R. subst r2.
  destruct r1 as [e|a]; [apply Hh, R | split; [reflexivity | exact R]].
Qed.

Create HintDb sim_db.
#[local] Hint Resolve bind_sim ret_sim raise_sim read_sim tell_sim unpack_H_sim
  unpack_I_sim alloc_sim append_sim copy_sim catch_sim : sim_db.

Ltac sim_auto := repeat (apply bind_sim; [eauto with sim_db | intros ?]).

Lemma read_py_table_sim g : forall n d, sim (read_py_table g n d).
Proof.
  induction n as [|n IH]; intros d; [apply ret_sim |].
  cbn [read_py_table]. sim_auto. apply IH.
Qed.

Lemma read_py_indices_sim d wp : forall py, sim (read_py_indices d wp py).
Proof.
  fix IH 1. intros py. destruct py as [|b0 [|b1 py]]; [apply ret_sim | apply ret_sim |].
  cbn [read_py_indices]. sim_auto. apply IH.
Qed.

Lemma read_homophones_sim g wp : forall n ws, sim (read_homophones g n wp ws).
Proof.
  induction n as [|n IH]; intros ws; [apply ret_sim |].
  cbn [read_homophones]. sim_auto.
  destruct (_ <? _)%nat; [apply ret_sim |]. sim_auto. apply IH.
Qed.

Lemma parse_pinyin_word_sim g d : sim (parse_pinyin_word g d).
Proof.
  unfold parse_pinyin_word. sim_auto.
  destruct (_ <? _)%nat; [apply ret_sim |]. sim_auto.
  - apply read_py_indices_sim.
  - apply read_homophones_sim.
Qed.

Lemma parse_groups_sim g d : forall n acc, sim (parse_groups g d n acc).
Proof.
  induction n as [|n IH]; intros acc; [apply ret_sim |].
  cbn [parse_groups]. apply bind_sim; [| intros; apply IH].
  apply catch_sim.
  - apply bind_sim; [apply parse_pinyin_word_sim | intros; apply ret_sim].
  - intros e. apply bind_sim; [apply tell_sim |]. intros p.
    destruct (Nat.odd p); [| apply ret_sim].
    apply bind_sim; [apply read_sim | intros; apply ret_sim].
Qed.

(** [parse_scel] reads nothing of the fixed header region but the group
    count at 0x120: two files that differ only in the other bytes of the
    first 0x1540 (word count, name, type, description, sample) give the
    same result and the same pinyin lists. *)
Theorem parse_scel_ignores_metadata (g : list Z -> pystr) (pre1 pre2 Y : list Z) :
  length pre1 = 0x1540%nat -> length pre2 = 0x1540%nat ->
  take 4 (drop 0x120 pre1) = take 4 (drop 0x120 pre2) ->
  fst (parse_scel g (pre1 ++ Y)) = fst (parse_scel g (pre2 ++ Y)) /\
  heap (snd (parse_scel g (pre1 ++ Y))) = heap (snd (parse_scel g (pre2 ++ Y))).
Proof.
  intros H1 H2 Hd.
  assert (Hk : (0x124 <= 0x1540)%nat) by (apply Nat.leb_le; reflexivity).
  unfold parse_scel, parse_scel_m. rewrite !seek_bind, !read_bind.
  change (rest (set_pos (open_file (pre1 ++ Y)) 0x120)) with (drop 0x120 (pre1 ++ Y)).
  change (rest (set_pos (open_file (pre2 ++ Y)) 0x120)) with (drop 0x120 (pre2 ++ Y)).
  rewrite !take_drop_app by lia. rewrite Hd.
  destruct (take 4 (drop 0x120 pre2)) as [|b0 [|b1 [|b2 [|b3 [|b4 r]]]]];
    try (split; reflexivity).
  cbn [unpack_I]. rewrite !ret_bind, !seek_bind.
  match goal with
  | |- fst (?K ?s1) = fst (?K ?s2) /\ _ =>
      assert (HK : sim K) by (sim_auto; [apply read_py_table_sim | apply parse_groups_sim]);
      destruct (HK s1 s2) as [E (_ & _ & Hh & _)]
  end.
  - repeat split; try reflexivity. unfold rest. simpl.
    rewrite !drop_app_length' by congruence. reflexivity.
  - split; assumption.
Qed.

Lemma parse_scel_ignores_metadata_witness :
  fst (parse_scel (fun _ => []) (repeat 0 0x1540 ++ [])) =
  fst (parse_scel (fun _ => []) (repeat 7 0x120 ++ repeat 0 (0x1540 - 0x120) ++ [])) /\
  heap (snd (parse_scel (fun _ => []) (repeat 0 0x1540 ++ []))) =
  heap (snd (parse_scel (fun _ => []) (repeat 7 0x120 ++ repeat 0 (0x1540 - 0x120) ++ []))).
Proof.
  rewrite app_assoc.
  apply parse_scel_ignores_metadata.
  - apply repeat_length.
  - vm_compute. reflexivity.
  - vm_compute. reflexivity.
Defined.
